(** * SvsAnon: the Aperio label anonymizer ([anonymizer.py])

    A shallow embedding of the TIFF/BigTIFF container parser and of the
    in-place label redaction of [anonymizer.py], with the properties of
    its specification stated and proved over the embedding.

    Modelling conventions.
    - The open file is a byte list with a cursor.  A read returns the
      bytes that are there (fewer than asked at the end of the file), a
      write past the end fills the gap with zero bytes, as C stdio does
      for a file opened ['r+b'].
    - Python 2 [str] values are byte lists; integers are [Z].
    - Exceptions are values of [exn]; a computation on the open file is
      a state-and-exception monad [M].
    - The directory walk of [TiffFile.__init__] is an unbounded [while]
      loop; it is embedded with a fuel argument and returns [None] when
      the fuel runs out.
    - The open file also carries the log of its [write] calls, which the
      program does not have: the properties about what is written are
      stated on it.
    - Output to stdout is not modelled, except the byte count of the
      last message, which is the value a successful call returns.
    - Limits of the platform (the range of [off_t] and [ssize_t], the
      memory available to [range] and to string repetition) are not
      modelled: sizes and offsets are unbounded integers.  In
      particular a seek always succeeds, where [file.seek] raises for
      an offset the platform refuses ([OverflowError] from [2^63] on,
      [IOError] beyond what the file system accepts).  A seek to an
      offset of the file, its end included, is accepted everywhere: a
      property that needs a seek to succeed is stated for such
      offsets, or for the runs that return. *)

From Stdlib Require Import ZArith List Lia String Ascii.
From Stdlib.Strings Require Import Byte.
From stdpp Require Import base option list gmap.
Import ListNotations.
Local Open Scope Z_scope.

(** ** Bytes and integers *)

Definition byte_to_Z (b : byte) : Z := Z.of_N (Byte.to_N b).

Definition byte_of_Z (z : Z) : byte :=
  match Byte.of_N (Z.to_N (z mod 256)) with
  | Some b => b
  | None => x00
  end.

(** Python 2 string literals. *)
Definition bytes_of (s : string) : list byte := list_byte_of_string s.

Inductive endian := LittleEndian | BigEndian.

(** Unsigned value of a byte string, least significant byte first. *)
Fixpoint le_to_Z (bs : list byte) : Z :=
  match bs with
  | [] => 0
  | b :: bs' => byte_to_Z b + 256 * le_to_Z bs'
  end.

(** The [n] low bytes of [v], least significant first. *)
Fixpoint Z_to_le (n : nat) (v : Z) : list byte :=
  match n with
  | O => []
  | S n' => byte_of_Z v :: Z_to_le n' (v / 256)
  end.

Definition bytes_to_Z (e : endian) (bs : list byte) : Z :=
  match e with
  | LittleEndian => le_to_Z bs
  | BigEndian => le_to_Z (rev bs)
  end.

Definition Z_to_bytes (e : endian) (n : nat) (v : Z) : list byte :=
  match e with
  | LittleEndian => Z_to_le n v
  | BigEndian => rev (Z_to_le n v)
  end.

(** ** The [struct] module, as far as the program uses it *)

(** Format characters of the program's format strings: the codes of
    [struct] that occur, and the four mode-relative codes [y Y z Z] of
    [_convert_format]. *)
Inductive fmt_char :=
  | Fc | Fh | FH | Fi | FI | Fq | FQ
  | Fy | FY | Fz | FZ.

(** Format characters [struct] itself understands. *)
Inductive struct_char := Sc | Sh | SH | Si | SI | Sq | SQ.

(** A format string is a sequence of codes, each with a repeat count:
    ['HHZZ'] is [[(1,FH);(1,FH);(1,FZ);(1,FZ)]], ['%d%s' % (n, 'c')] is
    [[(n,Fc)]]. *)
Definition fmt := list (Z * fmt_char).

Record struct_fmt := { prefix : endian; codes : list (Z * struct_char) }.

Definition size_of (c : struct_char) : Z :=
  match c with
  | Sc => 1
  | Sh | SH => 2
  | Si | SI => 4
  | Sq | SQ => 8
  end.

Definition is_signed (c : struct_char) : bool :=
  match c with
  | Sh | Si | Sq => true
  | _ => false
  end.

(** [struct.calcsize] with a byte-order prefix: standard sizes, no
    alignment. *)
Fixpoint calcsize_codes (cs : list (Z * struct_char)) : Z :=
  match cs with
  | [] => 0
  | (n, c) :: cs' => n * size_of c + calcsize_codes cs'
  end.

Definition calcsize (f : struct_fmt) : Z := calcsize_codes (codes f).

(** A value produced by [struct.unpack]: a one-character string for
    code [c], an integer for the other codes. *)
Inductive item :=
  | Chr (b : byte)
  | Int (v : Z).

Definition decode_item (e : endian) (c : struct_char) (bs : list byte) : item :=
  match c with
  | Sc => Chr (hd x00 bs)
  | _ =>
      let u := bytes_to_Z e bs in
      let w := 8 * size_of c in
      if is_signed c && (2 ^ (w - 1) <=? u) then Int (u - 2 ^ w) else Int u
  end.

Fixpoint unpack_rep (e : endian) (c : struct_char) (n : nat) (bs : list byte)
  : list item :=
  match n with
  | O => []
  | S n' =>
      let k := Z.to_nat (size_of c) in
      decode_item e c (take k bs) :: unpack_rep e c n' (drop k bs)
  end.

Fixpoint unpack_codes (e : endian) (cs : list (Z * struct_char)) (bs : list byte)
  : list item :=
  match cs with
  | [] => []
  | (n, c) :: cs' =>
      let k := Z.to_nat (n * size_of c) in
      unpack_rep e c (Z.to_nat n) (take k bs) ++ unpack_codes e cs' (drop k bs)
  end.

(** Python exceptions the program can raise. *)
Inductive exn :=
  | IOError (msg : string)
  | ValueError (msg : string)
  | StructError
  | IndexError
  | TypeError
  | AttributeError.

(** [struct.unpack]: the string must have exactly the size of the
    format, otherwise [struct.error]. *)
Definition unpack (f : struct_fmt) (bs : list byte) : exn + list item :=
  if Z.of_nat (length bs) =? calcsize f
  then inr (unpack_codes (prefix f) (codes f) bs)
  else inl StructError.

(** [struct.pack] of one integer: [struct.error] when the value does not
    fit the code. *)
Definition pack1 (e : endian) (c : struct_char) (v : Z) : exn + list byte :=
  let w := 8 * size_of c in
  let lo := if is_signed c then - 2 ^ (w - 1) else 0 in
  let hi := if is_signed c then 2 ^ (w - 1) else 2 ^ w in
  if (lo <=? v) && (v <? hi)
  then inr (Z_to_bytes e (Z.to_nat (size_of c)) v)
  else inl StructError.

(** ** Tags and type codes *)

Definition ASCII : Z := 2.
Definition SHORT : Z := 3.
Definition LONG : Z := 4.
Definition LONG8 : Z := 16.

Definition IMAGE_DESCRIPTION : Z := 270.
Definition STRIP_OFFSETS : Z := 273.
Definition STRIP_BYTE_COUNTS : Z := 279.

(** ** Directory entries and directories *)

Record TiffEntry := {
  start : Z;
  tag : Z;
  type : Z;
  count : Z;
  value_offset : Z;
}.

Record TiffDirectory := {
  in_pointer_offset : Z;
  entries : gmap Z TiffEntry;
  out_pointer_offset : Z;
}.

(** ** The open file: [class TiffFile(file)] *)

Record TiffFile := {
  data : list byte;                 (* the bytes of the file *)
  pos : Z;                          (* the cursor, [tell()] *)
  written : list (Z * list byte);   (* ghost: the [write] calls so far, oldest first *)
  _fmt_prefix : endian;
  _bigtiff : bool;
}.

Definition set_pos (p : Z) (fh : TiffFile) : TiffFile :=
  {| data := data fh; pos := p; written := written fh;
     _fmt_prefix := _fmt_prefix fh; _bigtiff := _bigtiff fh |}.

Definition set_bigtiff (b : bool) (fh : TiffFile) : TiffFile :=
  {| data := data fh; pos := pos fh; written := written fh;
     _fmt_prefix := _fmt_prefix fh; _bigtiff := b |}.

(** State and exception monad over the open file. *)
Definition M (A : Type) : Type := TiffFile -> (exn + A) * TiffFile.

Definition ret {A} (a : A) : M A := fun fh => (inr a, fh).
Definition raise {A} (e : exn) : M A := fun fh => (inl e, fh).
Definition bind {A B} (c : M A) (k : A -> M B) : M B :=
  fun fh =>
    match c fh with
    | (inl e, fh') => (inl e, fh')
    | (inr a, fh') => k a fh'
    end.

Notation "x <- c ;; k" := (bind c (fun x => k))
  (at level 100, c at next level, right associativity).
Notation "c ;; k" := (bind c (fun _ => k))
  (at level 100, right associativity).

(** *** Primitives of the file object *)

Definition bytes_at (d : list byte) (p n : Z) : list byte :=
  take (Z.to_nat n) (drop (Z.to_nat p) d).

(** The file after writing [bs] at offset [p]; writing nothing changes
    nothing, writing past the end fills the gap with zero bytes. *)
Definition store (d : list byte) (p : Z) (bs : list byte) : list byte :=
  match bs with
  | [] => d
  | _ =>
      take (Z.to_nat p) d
        ++ replicate (Z.to_nat p - length d)%nat x00
        ++ bs
        ++ drop (Z.to_nat p + length bs)%nat d
  end.

Definition tell : M Z := fun fh => (inr (pos fh), fh).

(** [seek(p)], for an offset the platform accepts (every offset of the
    file, its end included, is one); the offsets it refuses are not
    modelled. *)
Definition seek (p : Z) : M unit := fun fh => (inr tt, set_pos p fh).

Definition read (n : Z) : M (list byte) :=
  fun fh =>
    let bs := bytes_at (data fh) (pos fh) n in
    (inr bs, set_pos (pos fh + Z.of_nat (length bs)) fh).

Definition write (bs : list byte) : M unit :=
  fun fh =>
    (inr tt,
     {| data := store (data fh) (pos fh) bs;
        pos := pos fh + Z.of_nat (length bs);
        written := written fh ++ [(pos fh, bs)];
        _fmt_prefix := _fmt_prefix fh; _bigtiff := _bigtiff fh |}).

(** *** Methods of [TiffFile] *)

(** [string.maketrans('yYzZ', 'qQqQ')] on BigTIFF, ['hHiI'] otherwise. *)
Definition translate (bigtiff : bool) (c : fmt_char) : struct_char :=
  match c with
  | Fc => Sc | Fh => Sh | FH => SH | Fi => Si | FI => SI | Fq => Sq | FQ => SQ
  | Fy => if bigtiff then Sq else Sh
  | FY => if bigtiff then SQ else SH
  | Fz => if bigtiff then Sq else Si
  | FZ => if bigtiff then SQ else SI
  end.

Definition _convert_format (fh : TiffFile) (f : fmt) : struct_fmt :=
  {| prefix := _fmt_prefix fh;
     codes := map (fun nc => (fst nc, translate (_bigtiff fh) (snd nc))) f |}.

Definition fmt_size (fh : TiffFile) (f : fmt) : Z :=
  calcsize (_convert_format fh f).

(** [read_fmt(fmt, force_list=True)]: the tuple of unpacked values. *)
Definition read_fmt (f : fmt) : M (list item) :=
  fun fh =>
    let sf := _convert_format fh f in
    (bs <- read (calcsize sf) ;;
     match unpack sf bs with
     | inl e => raise e
     | inr vals => ret vals
     end) fh.

(** [read_fmt(c)] for a format of one integer code: the tuple has one
    element, which [read_fmt] returns bare. *)
Definition read_int (c : fmt_char) : M Z :=
  vals <- read_fmt [(1, c)] ;;
  match vals with
  | [Int v] => ret v
  | _ => raise TypeError
  end.

(** [write_fmt(c, v)] for a format of one integer code. *)
Definition write_fmt (c : fmt_char) (v : Z) : M unit :=
  fun fh =>
    match pack1 (_fmt_prefix fh) (translate (_bigtiff fh) c) v with
    | inl e => raise e fh
    | inr bs => write bs fh
    end.

(** ** [class TiffEntry] *)

(** [TiffEntry.__init__]: the tuple of ['HHZZ'] always has four integers,
    the last branch is there for totality only. *)
Definition TiffEntry_init : M TiffEntry :=
  s <- tell ;;
  vals <- read_fmt [(1, FH); (1, FH); (1, FZ); (1, FZ)] ;;
  match vals with
  | [Int t; Int ty; Int n; Int v] =>
      ret {| start := s; tag := t; type := ty; count := n; value_offset := v |}
  | _ => raise TypeError
  end.

(** ** [class TiffDirectory] *)

(** The loop [for _ in range(count)] of [TiffDirectory.__init__]. *)
Fixpoint read_entries (n : nat) (es : gmap Z TiffEntry) : M (gmap Z TiffEntry) :=
  match n with
  | O => ret es
  | S n' =>
      entry <- TiffEntry_init ;;
      read_entries n' (<[tag entry := entry]> es)
  end.

Definition TiffDirectory_init (in_pointer : Z) : M TiffDirectory :=
  n <- read_int FY ;;
  es <- read_entries (Z.to_nat n) ∅ ;;
  out_pointer <- tell ;;
  ret {| in_pointer_offset := in_pointer; entries := es;
         out_pointer_offset := out_pointer |}.

(** ** [TiffFile.__init__] *)

Fixpoint bytes_eqb (a b : list byte) : bool :=
  match a, b with
  | [], [] => true
  | x :: a', y :: b' => Byte.eqb x y && bytes_eqb a' b'
  | _, _ => false
  end.

Definition set_fmt_prefix (e : endian) : M unit :=
  fun fh =>
    (inr tt,
     {| data := data fh; pos := pos fh; written := written fh;
        _fmt_prefix := e; _bigtiff := _bigtiff fh |}).

Definition assign_bigtiff (b : bool) : M unit :=
  fun fh => (inr tt, set_bigtiff b fh).

(** "Check header, decide endianness". *)
Definition check_endianness : M unit :=
  endian <- read 2 ;;
  if bytes_eqb endian (bytes_of "II") then set_fmt_prefix LittleEndian
  else if bytes_eqb endian (bytes_of "MM") then set_fmt_prefix BigEndian
  else raise (IOError "Not a TIFF file").

(** "Check TIFF version". *)
Definition check_version : M unit :=
  assign_bigtiff false ;;
  version <- read_int FH ;;
  if version =? 42 then ret tt
  else if version =? 43 then
    assign_bigtiff true ;;
    vals <- read_fmt [(1, FH); (1, FH)] ;;
    match vals with
    | [Int magic2; Int reserved] =>
        if negb (magic2 =? 8) || negb (reserved =? 0)
        then raise (IOError "Bad BigTIFF header")
        else ret tt
    | _ => raise TypeError
    end
  else raise (IOError "Not a TIFF file").

Definition read_header : M unit := check_endianness ;; check_version.

(** "Read directories": the [while True] loop, with fuel; [dirs] is
    [self.directories] so far. *)
Fixpoint read_directories (fuel : nat) (dirs : list TiffDirectory) (fh : TiffFile)
  : option ((exn + list TiffDirectory) * TiffFile) :=
  match fuel with
  | O => None
  | S fuel' =>
      match (in_pointer <- tell ;;
             directory_offset <- read_int FZ ;;
             ret (in_pointer, directory_offset)) fh with
      | (inl e, fh1) => Some (inl e, fh1)
      | (inr (in_pointer, directory_offset), fh1) =>
          if directory_offset =? 0 then Some (inr dirs, fh1)
          else
            match (seek directory_offset ;;
                   TiffDirectory_init in_pointer) fh1 with
            | (inl e, fh2) => Some (inl e, fh2)
            | (inr d, fh2) => read_directories fuel' (dirs ++ [d]) fh2
            end
      end
  end.

(** The file just opened: cursor at 0, nothing written; [_fmt_prefix]
    and [_bigtiff] are assigned by the header checks before they are
    read. *)
Definition opened (contents : list byte) : TiffFile :=
  {| data := contents; pos := 0; written := [];
     _fmt_prefix := LittleEndian; _bigtiff := false |}.

(** [TiffFile(path)]: the open file and its attribute [directories]. *)
Definition TiffFile_init (fuel : nat) (contents : list byte)
  : option ((exn + list TiffDirectory) * TiffFile) :=
  match read_header (opened contents) with
  | (inl e, fh) => Some (inl e, fh)
  | (inr _, fh) => read_directories fuel [] fh
  end.

(** ** [TiffEntry.value] *)

(** What [value] returns: a [str] for ASCII, the tuple of items
    otherwise. *)
Inductive pyvalue :=
  | Str (s : list byte)
  | Tuple (t : list item).

(** [''.join(items)]. *)
Fixpoint join (items : list item) : exn + list byte :=
  match items with
  | [] => inr []
  | Chr b :: rest =>
      match join rest with
      | inl e => inl e
      | inr s => inr (b :: s)
      end
  | Int _ :: _ => inl TypeError
  end.

Definition item_eqb (a b : item) : bool :=
  match a, b with
  | Chr x, Chr y => Byte.eqb x y
  | Int x, Int y => x =? y
  | _, _ => false
  end.

Definition item_fmt_of (ty : Z) : M fmt_char :=
  if ty =? ASCII then ret Fc
  else if ty =? SHORT then ret FH
  else if ty =? LONG then ret FI
  else if ty =? LONG8 then ret FQ
  else raise (ValueError "Unsupported type").

(** The position [value] seeks to before it reads the items. *)
Definition value_position (fh : TiffFile) (e : TiffEntry) (f : fmt) : Z :=
  let len := fmt_size fh f in
  if len <=? fmt_size fh [(1, FZ)]
  then start e + fmt_size fh [(1, FH); (1, FH); (1, FZ)]   (* inline value *)
  else value_offset e.                                     (* out-of-line value *)

(** The end of [value]: read the items at the cursor, check and strip
    the terminator of a string. *)
Definition read_value (e : TiffEntry) (f : fmt) : M pyvalue :=
  items <- read_fmt f ;;
  if type e =? ASCII then
    match last items with
    | None => raise IndexError
    | Some l =>
        if negb (item_eqb l (Chr x00))
        then raise (ValueError "String not null-terminated")
        else
          match join (removelast items) with
          | inl ex => raise ex
          | inr s => ret (Str s)
          end
    end
  else ret (Tuple items).

Definition value (e : TiffEntry) : M pyvalue :=
  item_fmt <- item_fmt_of (type e) ;;
  let f := [(count e, item_fmt)] in
  (fun fh => seek (value_position fh e f) fh) ;;
  read_value e f.

(** ** Methods of [str] *)

(** [s.startswith(p)]. *)
Fixpoint startswith (p s : list byte) : bool :=
  match p, s with
  | [], _ => true
  | x :: p', y :: s' => Byte.eqb x y && startswith p' s'
  | _ :: _, [] => false
  end.

(** [s.splitlines()] of a Python 2 [str]: a line ends at ["\n"], ["\r"]
    or ["\r\n"], without the line break; [cur] holds the current line
    reversed. *)
Fixpoint splitlines_from (cur s : list byte) : list (list byte) :=
  match s with
  | [] =>
      match cur with
      | [] => []
      | _ => [rev cur]
      end
  | c :: rest =>
      if Byte.eqb c x0d then
        match rest with
        | c' :: rest' =>
            if Byte.eqb c' x0a then rev cur :: splitlines_from [] rest'
            else rev cur :: splitlines_from [] rest
        | [] => rev cur :: splitlines_from [] rest
        end
      else if Byte.eqb c x0a then rev cur :: splitlines_from [] rest
      else splitlines_from (c :: cur) rest
  end.

Definition splitlines (s : list byte) : list (list byte) := splitlines_from [] s.

(** ** [delete_aperio_label] *)

(** [sys.getsizeof] of a [str]: the size of the string object, which is
    the size [basicsize] of an empty string object (37 on a 64-bit
    CPython 2.7, 21 on a 32-bit one) plus the length. *)
Definition getsizeof (basicsize : Z) (s : list byte) : Z :=
  basicsize + Z.of_nat (length s).

(** Iterating over a value: the characters of a [str], the items of a
    tuple. *)
Definition iter (v : pyvalue) : list item :=
  match v with
  | Str s => map Chr s
  | Tuple t => t
  end.

(** "Wipe strips": [for offset, length in zip(offsets, lengths)]. *)
Fixpoint wipe_strips (basicsize : Z) (pairs : list (item * item)) (write_size : Z)
  : M Z :=
  match pairs with
  | [] => ret write_size
  | (offset, len) :: rest =>
      match offset with
      | Int o => seek o
      | Chr _ => raise TypeError
      end ;;
      zeros <- match len with
               | Int l => ret (replicate (Z.to_nat l) x00)
               | Chr _ => raise TypeError
               end ;;
      write zeros ;;
      wipe_strips basicsize rest (write_size + getsizeof basicsize zeros)
  end.

(** The body of the loop from "Get strip offsets/lengths" to [break],
    for the directory that matched; returns the [write_size] printed. *)
Definition redact_directory (basicsize : Z) (delete_entry : bool)
    (directory : TiffDirectory) (write_size : Z) : M Z :=
  match entries directory !! STRIP_OFFSETS with
  | None => raise (IOError "Label is not stripped")
  | Some eo =>
      offsets <- value eo ;;
      match entries directory !! STRIP_BYTE_COUNTS with
      | None => raise (IOError "Label is not stripped")
      | Some el =>
          lengths <- value el ;;
          write_size' <- wipe_strips basicsize
                           (zip (iter offsets) (iter lengths)) write_size ;;
          seek (out_pointer_offset directory) ;;
          out_pointer <- read_int FZ ;;
          seek (in_pointer_offset directory) ;;
          (if delete_entry then write_fmt FZ out_pointer else ret tt) ;;
          ret write_size'
      end
  end.

(** [for directory in fh.directories: ... else: raise IOError]. *)
Fixpoint scan (basicsize : Z) (delete_entry : bool)
    (dirs : list TiffDirectory) (write_size : Z) : M Z :=
  match dirs with
  | [] => raise (IOError "Couldn't find Aperio label directory")
  | directory :: rest =>
      match entries directory !! IMAGE_DESCRIPTION with
      | None => scan basicsize delete_entry rest write_size
      | Some e =>
          desc <- value e ;;
          match desc with
          | Tuple _ => raise AttributeError
          | Str s =>
              if negb (startswith (bytes_of "Aperio") s)
              then scan basicsize delete_entry rest write_size
              else
                let lines := splitlines s in
                if (length lines <? 2)%nat
                   || negb (startswith (bytes_of "label ") (nth 1 lines []))
                then scan basicsize delete_entry rest write_size
                else redact_directory basicsize delete_entry directory write_size
          end
      end
  end.

(** What a call leaves behind: the exception or the byte count it
    prints, the bytes of the file, and the writes it made. *)
Record outcome := {
  result : exn + Z;
  file_after : list byte;
  writes : list (Z * list byte);
}.

Definition delete_aperio_label (fuel : nat) (basicsize : Z)
    (contents : list byte) (delete_entry : bool) : option outcome :=
  match TiffFile_init fuel contents with
  | None => None
  | Some (inl e, fh) =>
      Some {| result := inl e; file_after := data fh; writes := written fh |}
  | Some (inr directories, fh) =>
      match scan basicsize delete_entry directories 0 fh with
      | (r, fh') =>
          Some {| result := r; file_after := data fh'; writes := written fh' |}
      end
  end.

(** * Specification-level definitions *)

(** ** Computations that only move the cursor, or write nothing *)

(** [fh'] is [fh] with the cursor moved: same bytes, same writes, same
    mode. *)
Definition cursor_only (fh fh' : TiffFile) : Prop := fh' = set_pos (pos fh') fh.

Definition readonly {A} (c : M A) : Prop :=
  forall fh, cursor_only fh (snd (c fh)).

(** A computation that leaves the bytes of the file alone and writes
    nothing. *)
Definition quiet {A} (c : M A) : Prop :=
  forall fh, data (snd (c fh)) = data fh /\ written (snd (c fh)) = written fh.

(** ** The header, as the specification words it *)

(** The endianness marker: the first two bytes. *)
Definition marker_of (contents : list byte) : option endian :=
  let m := bytes_at contents 0 2 in
  if bytes_eqb m (bytes_of "II") then Some LittleEndian
  else if bytes_eqb m (bytes_of "MM") then Some BigEndian
  else None.

(** The 16-bit field at offset [p], when the file has it. *)
Definition uint16_at (e : endian) (contents : list byte) (p : Z) : option Z :=
  let bs := bytes_at contents p 2 in
  if Z.of_nat (length bs) =? 2 then Some (bytes_to_Z e bs) else None.

(** The version check of the specification: 42 selects the classic
    widths, 43 followed by the 16-bit values 8 and 0 the Big ones. *)
Definition version_spec (e : endian) (contents : list byte) : option bool :=
  match uint16_at e contents 2 with
  | None => None
  | Some version =>
      if version =? 42 then Some false
      else if version =? 43 then
        match uint16_at e contents 4, uint16_at e contents 6 with
        | Some magic2, Some reserved =>
            if (magic2 =? 8) && (reserved =? 0) then Some true else None
        | _, _ => None
        end
      else None
  end.

(** Header resolution of the specification: the endianness and whether
    the widths are the Big ones, or [None] for a header it rejects. *)
Definition header_spec (contents : list byte) : option (endian * bool) :=
  match marker_of contents with
  | None => None
  | Some e =>
      match version_spec e contents with
      | None => None
      | Some big => Some (e, big)
      end
  end.

(** The header the specification accepts, in its words: the marker is
    "II" or "MM", and the version is 42 (classic widths) or 43 followed
    by the two 16-bit values 8 and 0 (Big widths). *)
Definition valid_header (contents : list byte) (e : endian) (big : bool) : Prop :=
  marker_of contents = Some e
  /\ ((uint16_at e contents 2 = Some 42 /\ big = false)
      \/ (uint16_at e contents 2 = Some 43
          /\ uint16_at e contents 4 = Some 8
          /\ uint16_at e contents 6 = Some 0
          /\ big = true)).

(** The file after a successful header check: the cursor is on the slot
    of the first directory. *)
Definition after_header (contents : list byte) (e : endian) (big : bool)
  : TiffFile :=
  {| data := contents; pos := if big then 8 else 4; written := [];
     _fmt_prefix := e; _bigtiff := big |}.

(** The exceptions the specification calls FormatError: bad magic, bad
    version, bad Big header, truncated read. *)
Definition FormatError (ex : exn) : Prop :=
  ex = IOError "Not a TIFF file" \/ ex = IOError "Bad BigTIFF header"
  \/ ex = StructError.

(** A code of the program's formats that denotes an unsigned integer. *)
Definition unsigned_code (bigtiff : bool) (c : fmt_char) : Prop :=
  is_signed (translate bigtiff c) = false /\ translate bigtiff c <> Sc.

(** ** The value decoder, as the specification words it *)

(** The fixed table of the specification: the item code and the item
    size of each supported type code. *)
Definition item_table (ty : Z) : option (fmt_char * Z) :=
  if ty =? ASCII then Some (Fc, 1)
  else if ty =? SHORT then Some (FH, 2)
  else if ty =? LONG then Some (FI, 4)
  else if ty =? LONG8 then Some (FQ, 8)
  else None.

(** The width of the value slot: 4 bytes classic, 8 bytes Big. *)
Definition slot_width (fh : TiffFile) : Z := if _bigtiff fh then 8 else 4.

(** ** The entry table of a directory *)

(** The entries of a table of [n] entries at the cursor, in the order
    they are stored and read. *)
Fixpoint read_entry_list (n : nat) : M (list TiffEntry) :=
  match n with
  | O => ret []
  | S n' =>
      e <- TiffEntry_init ;;
      es <- read_entry_list n' ;;
      ret (e :: es)
  end.

(** The last entry of [es] that carries tag [t]. *)
Definition last_with_tag (t : Z) (es : list TiffEntry) : option TiffEntry :=
  last (filter (fun e => tag e = t) es).

(** ** The chain of directories, as the bytes of the file define it *)

(** The width of the entry count of a directory: 2 bytes classic,
    8 bytes Big. *)
Definition short_width (fh : TiffFile) : Z := if _bigtiff fh then 8 else 2.

(** The width of one entry: tag, type, count and value slot. *)
Definition entry_width (fh : TiffFile) : Z :=
  2 + 2 + slot_width fh + slot_width fh.

(** The unsigned field of [w] bytes at offset [p], when the file has
    it. *)
Definition uint_at (fh : TiffFile) (p w : Z) : option Z :=
  let bs := bytes_at (data fh) p w in
  if Z.of_nat (length bs) =? w
  then Some (bytes_to_Z (_fmt_prefix fh) bs)
  else None.

(** The link stored in the slot at [p]: the offset of a directory, or 0. *)
Definition link_at (fh : TiffFile) (p : Z) : option Z :=
  uint_at fh p (slot_width fh).

(** The entry count of the directory at [off]. *)
Definition count_at (fh : TiffFile) (off : Z) : option Z :=
  uint_at fh off (short_width fh).

(** [chain fh p ls]: following the links from the slot at [p] reaches a
    0 link after the directories [ls], each given by the slot that
    points to it and its offset.  The slot after a directory at [off]
    with [n] entries is at [off + short_width + n * entry_width]. *)
Inductive chain (fh : TiffFile) : Z -> list (Z * Z) -> Prop :=
  | chain_end (p : Z) :
      link_at fh p = Some 0 ->
      chain fh p []
  | chain_link (p off n : Z) (ls : list (Z * Z)) :
      link_at fh p = Some off ->
      off <> 0 ->
      count_at fh off = Some n ->
      chain fh (off + short_width fh + n * entry_width fh) ls ->
      chain fh p ((p, off) :: ls).

(** The directory decoded at offset [off], reached from the slot at
    [in_pointer]. *)
Definition directory_at (fh : TiffFile) (in_pointer off : Z)
  : option TiffDirectory :=
  match TiffDirectory_init in_pointer (set_pos off fh) with
  | (inr d, _) => Some d
  | (inl _, _) => None
  end.

(** ** The label heuristic and the exceptions of the specification *)

(** [d] is a directory the scan passes over: it has no
    [ImageDescription], or its description is a text that does not start
    with "Aperio", or has fewer than two lines, or has a second line
    that does not start with "label ". *)
Definition not_label (fh : TiffFile) (d : TiffDirectory) : Prop :=
  entries d !! IMAGE_DESCRIPTION = None
  \/ exists e s,
       entries d !! IMAGE_DESCRIPTION = Some e
       /\ fst (value e fh) = inr (Str s)
       /\ (startswith (bytes_of "Aperio") s = false
           \/ (length (splitlines s) < 2)%nat
           \/ startswith (bytes_of "label ") (nth 1 (splitlines s) []) = false).

(** [d] matches the label heuristic: its description is a text that
    starts with "Aperio" and whose second line starts with "label ". *)
Definition is_label (fh : TiffFile) (d : TiffDirectory) : Prop :=
  exists e s,
    entries d !! IMAGE_DESCRIPTION = Some e
    /\ fst (value e fh) = inr (Str s)
    /\ startswith (bytes_of "Aperio") s = true
    /\ (2 <= length (splitlines s))%nat
    /\ startswith (bytes_of "label ") (nth 1 (splitlines s) []) = true.

(** The exceptions the specification names. *)
Definition LabelNotFound : exn := IOError "Couldn't find Aperio label directory".
Definition MissingStripInfo : exn := IOError "Label is not stripped".
Definition MalformedString : exn := ValueError "String not null-terminated".
Definition UnsupportedValueType : exn := ValueError "Unsupported type".

(** What [delete_aperio_label] leaves behind, from the last state of the
    file. *)
Definition outcome_of (r : (exn + Z) * TiffFile) : outcome :=
  {| result := fst r; file_after := data (snd r); writes := written (snd r) |}.

(** ** Writes and the bytes they leave alone *)

(** The file after the writes [ws], oldest first. *)
Definition replay (ws : list (Z * list byte)) (d : list byte) : list byte :=
  foldl (fun d w => store d (fst w) (snd w)) d ws.



(** [fh'] is [fh] after the writes [W] (and cursor moves): the log has
    grown by [W], the bytes are those of [fh] with [W] replayed, the
    mode is the same. *)
Definition logged (fh fh' : TiffFile) (W : list (Z * list byte)) : Prop :=
  written fh' = written fh ++ W
  /\ data fh' = replay W (data fh)
  /\ _fmt_prefix fh' = _fmt_prefix fh
  /\ _bigtiff fh' = _bigtiff fh.

(** A write of zero bytes only. *)
Definition zero_fill (w : Z * list byte) : Prop :=
  exists n, snd w = replicate n x00.

(** A computation all of whose writes satisfy [P]. *)
Definition writes_only {A} (P : Z * list byte -> Prop) (c : M A) : Prop :=
  forall fh, exists W, logged fh (snd (c fh)) W /\ Forall P W.

(** The writes that wipe the strips [(offset, length)]. *)
Definition wipes (strips : list (Z * Z)) : list (Z * list byte) :=
  map (fun s => (fst s, replicate (Z.to_nat (snd s)) x00)) strips.

(** The sum of the lengths of the strips. *)
Definition total_length (strips : list (Z * Z)) : Z :=
  fold_right (fun s acc => Z.max 0 (snd s) + acc) 0 strips.

(** Strips as the pairs of items [zip] yields for tuples of integers. *)
Definition int_pairs (strips : list (Z * Z)) : list (item * item) :=
  map (fun s => (Int (fst s), Int (snd s))) strips.

(** ** The chain after the label is spliced out *)



(** [path fh p ls q]: following the links from the slot at [p] through
    the directories [ls] leads to the slot at [q]. *)
Inductive path (fh : TiffFile) : Z -> list (Z * Z) -> Z -> Prop :=
  | path_nil (p : Z) : path fh p [] p
  | path_cons (p off n : Z) (ls : list (Z * Z)) (q : Z) :
      link_at fh p = Some off ->
      off <> 0 ->
      count_at fh off = Some n ->
      path fh (off + short_width fh + n * entry_width fh) ls q ->
      path fh p ((p, off) :: ls) q.






(** ** Files used as examples *)

Definition le16 (v : Z) : list byte := Z_to_le 2 v.
Definition le32 (v : Z) : list byte := Z_to_le 4 v.

(** A classic little-endian directory entry. *)
Definition entry_le (t ty n v : Z) : list byte :=
  le16 t ++ le16 ty ++ le32 n ++ le32 v.

Definition label_description : list byte :=
  bytes_of "Aperio Image" ++ [x0a] ++ bytes_of "label 12345x6789 (3x2)".

(** The synthetic file of the specification: little-endian, classic, one
    directory at offset 8 with [ImageDescription] (stored at offset 50),
    [StripOffsets = [100]] and [StripByteCounts = [20]]; bytes 100..119
    are [0xff], four bytes [0xaa] follow. *)
Definition synthetic : list byte :=
  bytes_of "II" ++ le16 42 ++ le32 8
  ++ le16 3
  ++ entry_le 270 2 36 50
  ++ entry_le 273 4 1 100
  ++ entry_le 279 4 1 20
  ++ le32 0
  ++ label_description ++ [x00]
  ++ replicate 14 x00
  ++ replicate 20 xff
  ++ replicate 4 xaa.

(** The synthetic file after the redaction of its label. *)
Definition synthetic_wiped : list byte :=
  take 100 synthetic ++ replicate 20 x00 ++ replicate 4 xaa.

(** A file whose only directory, at offset 8 and without entries, links
    to itself. *)
Definition cyclic_file : list byte :=
  bytes_of "II" ++ Z_to_le 2 42 ++ Z_to_le 4 8 ++ Z_to_le 2 0 ++ Z_to_le 4 8.

(** A file whose only directory has the description "abc", stored
    inline. *)
Definition plain_file : list byte :=
  bytes_of "II" ++ le16 42 ++ le32 8
  ++ le16 1
  ++ le16 270 ++ le16 2 ++ le32 4 ++ bytes_of "abc" ++ [x00]
  ++ le32 0.

Definition plain_directory : TiffDirectory :=
  {| in_pointer_offset := 4;
     entries := {[ 270 := {| start := 10; tag := 270; type := 2; count := 4;
                             value_offset := 6513249 |} ]};
     out_pointer_offset := 22 |}.

(** A file whose only directory has an [ImageDescription] of four
    characters without terminator, stored inline. *)
Definition unterminated_file : list byte :=
  bytes_of "II" ++ le16 42 ++ le32 8
  ++ le16 1
  ++ le16 270 ++ le16 2 ++ le32 4 ++ bytes_of "abcd"
  ++ le32 0.

Definition unterminated_directory : TiffDirectory :=
  {| in_pointer_offset := 4;
     entries := {[ 270 := {| start := 10; tag := 270; type := 2; count := 4;
                             value_offset := 1684234849 |} ]};
     out_pointer_offset := 22 |}.

(** A file whose only directory is the label and has no strip entries. *)
Definition label_only_file : list byte :=
  bytes_of "II" ++ le16 42 ++ le32 8
  ++ le16 1
  ++ entry_le 270 2 36 26
  ++ le32 0
  ++ label_description ++ [x00].

Definition label_only_directory : TiffDirectory :=
  {| in_pointer_offset := 4;
     entries := {[ 270 := {| start := 10; tag := 270; type := 2; count := 36;
                             value_offset := 26 |} ]};
     out_pointer_offset := 22 |}.

(** A file whose only directory is the label, with [StripOffsets] of
    the unsupported type 5 and without [StripByteCounts]. *)
Definition rational_offsets_file : list byte :=
  bytes_of "II" ++ le16 42 ++ le32 8
  ++ le16 2
  ++ entry_le 270 2 36 38
  ++ entry_le 273 5 1 0
  ++ le32 0
  ++ label_description ++ [x00].

Definition rational_offsets_directory : TiffDirectory :=
  {| in_pointer_offset := 4;
     entries := <[ 273 := {| start := 22; tag := 273; type := 5; count := 1;
                             value_offset := 0 |} ]>
                {[ 270 := {| start := 10; tag := 270; type := 2; count := 36;
                             value_offset := 38 |} ]};
     out_pointer_offset := 34 |}.

(** A file of two directories: the first, at offset 8, has one entry
    (tag 256) and no description; the second, at offset 26, is the
    label, with one strip of 4 bytes at offset 104. *)
Definition two_directories_file : list byte :=
  bytes_of "II" ++ le16 42 ++ le32 8
  ++ le16 1 ++ entry_le 256 3 1 1 ++ le32 26
  ++ le16 3
  ++ entry_le 270 2 36 68
  ++ entry_le 273 4 1 104
  ++ entry_le 279 4 1 4
  ++ le32 0
  ++ label_description ++ [x00]
  ++ replicate 4 xff.

Definition first_directory : TiffDirectory :=
  {| in_pointer_offset := 4;
     entries := {[ 256 := {| start := 10; tag := 256; type := 3; count := 1;
                             value_offset := 1 |} ]};
     out_pointer_offset := 22 |}.

Definition label_directory : TiffDirectory :=
  {| in_pointer_offset := 22;
     entries := <[ 279 := {| start := 52; tag := 279; type := 4; count := 1;
                             value_offset := 4 |} ]>
               (<[ 273 := {| start := 40; tag := 273; type := 4; count := 1;
                             value_offset := 104 |} ]>
                {[ 270 := {| start := 28; tag := 270; type := 2; count := 36;
                             value_offset := 68 |} ]});
     out_pointer_offset := 64 |}.





(** A file of three directories: the first, at offset 8, has one entry
    (tag 256) and no description; the second, at offset 26, is the
    label, with one strip of 4 bytes at offset 122; the third, at offset
    68, has one entry (tag 256) and ends the chain. *)
Definition three_directories_file : list byte :=
  bytes_of "II" ++ le16 42 ++ le32 8
  ++ le16 1 ++ entry_le 256 3 1 1 ++ le32 26
  ++ le16 3
  ++ entry_le 270 2 36 86
  ++ entry_le 273 4 1 122
  ++ entry_le 279 4 1 4
  ++ le32 68
  ++ le16 1 ++ entry_le 256 3 1 2 ++ le32 0
  ++ label_description ++ [x00]
  ++ replicate 4 xff.

Definition middle_label_directory : TiffDirectory :=
  {| in_pointer_offset := 22;
     entries := <[ 279 := {| start := 52; tag := 279; type := 4; count := 1;
                             value_offset := 4 |} ]>
               (<[ 273 := {| start := 40; tag := 273; type := 4; count := 1;
                             value_offset := 122 |} ]>
                {[ 270 := {| start := 28; tag := 270; type := 2; count := 36;
                             value_offset := 86 |} ]});
     out_pointer_offset := 64 |}.

Definition last_directory : TiffDirectory :=
  {| in_pointer_offset := 64;
     entries := {[ 256 := {| start := 70; tag := 256; type := 3; count := 1;
                             value_offset := 2 |} ]};
     out_pointer_offset := 82 |}.

(** ** More specification-level definitions *)


(** The bytes of a directory entry in the byte order and mode of [fh]:
    tag and type on 16 bits, count and value slot on a native long. *)
Definition encode_entry (fh : TiffFile) (t ty n v : Z) : list byte :=
  Z_to_bytes (_fmt_prefix fh) 2 t
  ++ Z_to_bytes (_fmt_prefix fh) 2 ty
  ++ Z_to_bytes (_fmt_prefix fh) (Z.to_nat (slot_width fh)) n
  ++ Z_to_bytes (_fmt_prefix fh) (Z.to_nat (slot_width fh)) v.

(** The directories [ds] are linked from the slot at [p]: each is
    reached from the slot that follows the one before it. *)
Fixpoint linked (p : Z) (ds : list TiffDirectory) : Prop :=
  match ds with
  | [] => True
  | d :: ds' => in_pointer_offset d = p /\ linked (out_pointer_offset d) ds'
  end.

(** The bytes of a sequence of unsigned integers of [sz] bytes each. *)
Definition encode_ints (e : endian) (sz : nat) (vs : list Z) : list byte :=
  flat_map (Z_to_bytes e sz) vs.

(** A byte at which [str.splitlines] ends a line. *)
Definition is_break (b : byte) : bool := Byte.eqb b x0d || Byte.eqb b x0a.

(** A text without a line break. *)
Definition unbroken (s : list byte) : bool :=
  forallb (fun b => negb (is_break b)) s.

(** The descriptions of a label: "Aperio", the rest of the first line,
    a line break, and a second line that starts with "label ". *)
Definition label_text (s : list byte) : Prop :=
  exists first brk tail,
    s = bytes_of "Aperio" ++ first ++ brk ++ bytes_of "label " ++ tail
    /\ unbroken first = true
    /\ (brk = [x0a] \/ brk = [x0d] \/ brk = [x0d; x0a]).

(** ** The loop over the files of the command line

    The files the program can open are a finite map from paths to
    contents; a path names one file. *)
Definition files := gmap string (list byte).

(** The body of [for filename in paths]: [TiffFile(filename)] raises
    [IOError] when there is no such file; an exception of the redaction
    is caught and sets the exit code to 1, and what was written before
    it stays in the file. *)
Definition strip_label (fuel : nat) (basicsize : Z) (remove_header : bool)
    (filename : string) (exit_code : Z) (fs : files) : option (Z * files) :=
  match fs !! filename with
  | None => Some (1, fs)
  | Some contents =>
      match delete_aperio_label fuel basicsize contents remove_header with
      | None => None
      | Some o =>
          Some (match result o with inl _ => 1 | inr _ => exit_code end,
                <[filename := file_after o]> fs)
      end
  end.

(** [for filename in paths: ...], to the argument of [sys.exit]. *)
Fixpoint strip_labels (fuel : nat) (basicsize : Z) (remove_header : bool)
    (paths : list string) (exit_code : Z) (fs : files) : option (Z * files) :=
  match paths with
  | [] => Some (exit_code, fs)
  | filename :: rest =>
      match strip_label fuel basicsize remove_header filename exit_code fs with
      | None => None
      | Some (exit_code', fs') =>
          strip_labels fuel basicsize remove_header rest exit_code' fs'
      end
  end.

(** The redaction of the file at [filename] returns normally. *)
Definition succeeds (fuel : nat) (basicsize : Z) (remove_header : bool)
    (fs : files) (filename : string) : Prop :=
  exists contents o n,
    fs !! filename = Some contents
    /\ delete_aperio_label fuel basicsize contents remove_header = Some o
    /\ result o = inr n.

(** There is no file at [filename], or its redaction raises. *)
Definition fails (fuel : nat) (basicsize : Z) (remove_header : bool)
    (fs : files) (filename : string) : Prop :=
  fs !! filename = None
  \/ exists contents o ex,
       fs !! filename = Some contents
       /\ delete_aperio_label fuel basicsize contents remove_header = Some o
       /\ result o = inl ex.

(** The walk of the file at [filename], if there is one, ends within
    [fuel] directories. *)
Definition walk_ends (fuel : nat) (fs : files) (filename : string) : Prop :=
  forall contents,
    fs !! filename = Some contents -> TiffFile_init fuel contents <> None.

(** The walk cannot go on from the slot at [q]: the slot, the entry
    count of the directory it points to, or the entries of this
    directory reach past the end of the file. *)
Definition truncated_at (fh : TiffFile) (q : Z) : Prop :=
  link_at fh q = None
  \/ exists off,
       link_at fh q = Some off /\ off <> 0
       /\ (count_at fh off = None
           \/ exists n,
                count_at fh off = Some n
                /\ Z.of_nat (length (data fh))
                   < off + short_width fh + n * entry_width fh).

(** The walk reaches the slot at [q] and what it points to by seeks
    that every platform accepts and by loops that every platform
    builds: the slot starts in the file (so that the directories
    before it lie in the file); when it holds a link, the link points
    into the file or to its end, and the entry count found there is
    below [2^16], as every classic count is. *)
Definition within_reach (fh : TiffFile) (q : Z) : Prop :=
  q <= Z.of_nat (length (data fh))
  /\ forall off,
       link_at fh q = Some off ->
       off <= Z.of_nat (length (data fh))
       /\ forall n, count_at fh off = Some n -> n < 2 ^ 16.

(** A classic little-endian file whose first link points to its end. *)
Definition dangling_file : list byte := bytes_of "II" ++ le16 42 ++ le32 8.

(** The strip [(offset, length)] lies in the file. *)
Definition in_file (contents : list byte) (s : Z * Z) : Prop :=
  0 <= fst s /\ 0 <= snd s /\ fst s + snd s <= Z.of_nat (length contents).

(** The strips of [d], when both strip entries decode to tuples of
    integers, lie in the file. *)
Definition strips_in_file (fh : TiffFile) (d : TiffDirectory) : Prop :=
  forall eo el offsets lengths,
    entries d !! STRIP_OFFSETS = Some eo ->
    entries d !! STRIP_BYTE_COUNTS = Some el ->
    fst (value eo fh) = inr (Tuple (map Int offsets)) ->
    fst (value el fh) = inr (Tuple (map Int lengths)) ->
    Forall (in_file (data fh)) (zip offsets lengths).

(** The synthetic file with a [StripByteCounts] of type ASCII, the
    text "A". *)
Definition ascii_lengths_file : list byte :=
  bytes_of "II" ++ le16 42 ++ le32 8
  ++ le16 3
  ++ entry_le 270 2 36 50
  ++ entry_le 273 4 1 100
  ++ entry_le 279 2 2 65
  ++ le32 0
  ++ label_description ++ [x00]
  ++ replicate 14 x00
  ++ replicate 20 xff
  ++ replicate 4 xaa.

(** * Properties *)

(** A concrete directory whose description is [label_description] is the
    label: the entry, its decoded value and the two prefixes are found
    by computation. *)
Ltac label_by_computation :=
  eexists _, label_description;
  split; [vm_compute; reflexivity|];
  split; [vm_compute; reflexivity|];
  split; [reflexivity|];
  split; [vm_compute; lia | reflexivity].

(** ** Bytes and integers *)

Lemma bytes_eqb_eq (a b : list byte) : bytes_eqb a b = true <-> a = b.
Proof.
  revert b; induction a as [|x a IH]; intros [|y b]; simpl; try (split; congruence).
  rewrite andb_true_iff, IH. split.
  - intros [H ->]. apply Byte.byte_dec_bl in H. congruence.
  - intros [= -> ->]. split; [apply Byte.byte_dec_lb|]; reflexivity.
Qed.

Lemma byte_to_Z_range (b : byte) : 0 <= byte_to_Z b < 256.
Proof.
  unfold byte_to_Z. pose proof (Byte.to_N_bounded b). lia.
Qed.

Lemma le_to_Z_range (bs : list byte) :
  0 <= le_to_Z bs < 256 ^ Z.of_nat (length bs).
Proof.
  induction bs as [|b bs IH]; simpl length; simpl le_to_Z.
  - simpl. lia.
  - rewrite Nat2Z.inj_succ, Z.pow_succ_r by lia.
    pose proof (byte_to_Z_range b). nia.
Qed.

Lemma bytes_to_Z_range (e : endian) (bs : list byte) :
  0 <= bytes_to_Z e bs < 256 ^ Z.of_nat (length bs).
Proof.
  destruct e; simpl.
  - apply le_to_Z_range.
  - rewrite <- (length_rev bs). apply le_to_Z_range.
Qed.

(** ** Computations that only move the cursor *)

Lemma cursor_only_refl fh : cursor_only fh fh.
Proof. destruct fh; reflexivity. Qed.

Lemma cursor_only_set_pos p fh : cursor_only fh (set_pos p fh).
Proof. reflexivity. Qed.

Lemma cursor_only_trans fh1 fh2 fh3 :
  cursor_only fh1 fh2 -> cursor_only fh2 fh3 -> cursor_only fh1 fh3.
Proof. unfold cursor_only. intros -> ->. reflexivity. Qed.

Lemma cursor_only_data fh fh' : cursor_only fh fh' -> data fh' = data fh.
Proof. intros ->. reflexivity. Qed.

Lemma cursor_only_written fh fh' : cursor_only fh fh' -> written fh' = written fh.
Proof. intros ->. reflexivity. Qed.

Lemma readonly_ret {A} (a : A) : readonly (ret a).
Proof. intros fh. apply cursor_only_refl. Qed.

Lemma readonly_raise {A} (e : exn) : readonly (@raise A e).
Proof. intros fh. apply cursor_only_refl. Qed.

Lemma readonly_bind {A B} (c : M A) (k : A -> M B) :
  readonly c -> (forall a, readonly (k a)) -> readonly (bind c k).
Proof.
  intros Hc Hk fh. unfold bind. specialize (Hc fh).
  destruct (c fh) as [[e|a] fh1]; simpl in *; [assumption|].
  eapply cursor_only_trans; [exact Hc | apply Hk].
Qed.

Lemma readonly_tell : readonly tell.
Proof. intros fh. apply cursor_only_refl. Qed.

Lemma readonly_seek p : readonly (seek p).
Proof. intros fh. apply cursor_only_set_pos. Qed.

Lemma readonly_read n : readonly (read n).
Proof. intros fh. apply cursor_only_set_pos. Qed.

Lemma readonly_read_fmt f : readonly (read_fmt f).
Proof.
  intros fh. unfold read_fmt.
  apply (readonly_bind (read _) _ (readonly_read _)).
  intros bs. destruct (unpack _ bs); [apply readonly_raise | apply readonly_ret].
Qed.

Lemma readonly_read_int c : readonly (read_int c).
Proof.
  apply readonly_bind; [apply readonly_read_fmt|].
  intros [|[b|v] [|? ?]]; first [apply readonly_raise | apply readonly_ret].
Qed.

Lemma readonly_TiffEntry_init : readonly TiffEntry_init.
Proof.
  apply readonly_bind; [apply readonly_tell | intros s].
  apply readonly_bind; [apply readonly_read_fmt | intros vals].
  repeat (match goal with
          | |- readonly (match ?x with _ => _ end) => destruct x
          end; try apply readonly_raise; try apply readonly_ret).
Qed.

Lemma readonly_read_entries n es : readonly (read_entries n es).
Proof.
  revert es; induction n as [|n IH]; intros es; simpl.
  - apply readonly_ret.
  - apply readonly_bind; [apply readonly_TiffEntry_init | intros e; apply IH].
Qed.

Lemma readonly_TiffDirectory_init p : readonly (TiffDirectory_init p).
Proof.
  apply readonly_bind; [apply readonly_read_int | intros n].
  apply readonly_bind; [apply readonly_read_entries | intros es].
  apply readonly_bind; [apply readonly_tell | intros q]. apply readonly_ret.
Qed.

Lemma readonly_item_fmt_of ty : readonly (item_fmt_of ty).
Proof.
  unfold item_fmt_of.
  repeat (match goal with
          | |- readonly (if ?x then _ else _) => destruct x
          end; try apply readonly_raise; try apply readonly_ret).
Qed.

Lemma readonly_read_value e f : readonly (read_value e f).
Proof.
  apply readonly_bind; [apply readonly_read_fmt | intros items].
  destruct (type e =? ASCII); [|apply readonly_ret].
  destruct (last items); [|apply readonly_raise].
  destruct (negb _); [apply readonly_raise|].
  destruct (join _); [apply readonly_raise | apply readonly_ret].
Qed.

Lemma readonly_value e : readonly (value e).
Proof.
  apply readonly_bind; [apply readonly_item_fmt_of | intros c].
  apply readonly_bind; [intros fh; apply cursor_only_set_pos | intros _].
  apply readonly_read_value.
Qed.

Create HintDb readonly.

#[global] Hint Resolve readonly_ret readonly_raise readonly_tell readonly_seek
  readonly_read readonly_read_fmt readonly_read_int readonly_TiffEntry_init
  readonly_read_entries readonly_TiffDirectory_init readonly_item_fmt_of
  readonly_read_value readonly_value : readonly.

(** ** Reading through [struct] *)

Lemma read_fmt_unfold (f : fmt) (fh : TiffFile) :
  read_fmt f fh =
    let sf := _convert_format fh f in
    let bs := bytes_at (data fh) (pos fh) (calcsize sf) in
    let fh' := set_pos (pos fh + Z.of_nat (length bs)) fh in
    match unpack sf bs with
    | inl e => (inl e, fh')
    | inr vals => (inr vals, fh')
    end.
Proof.
  unfold read_fmt, bind, read. cbv zeta.
  destruct (unpack _ _); reflexivity.
Qed.

Lemma decode_item_unsigned e c bs :
  is_signed c = false -> c <> Sc ->
  decode_item e c bs = Int (bytes_to_Z e bs).
Proof.
  intros Hs Hc. destruct c; try discriminate; try congruence; reflexivity.
Qed.

Lemma fmt_size_single (fh : TiffFile) (n : Z) (c : fmt_char) :
  fmt_size fh [(n, c)] = n * size_of (translate (_bigtiff fh) c).
Proof. unfold fmt_size, calcsize; simpl. lia. Qed.

Lemma read_int_unfold (c : fmt_char) (fh : TiffFile) :
  unsigned_code (_bigtiff fh) c ->
  read_int c fh =
    let w := size_of (translate (_bigtiff fh) c) in
    let bs := bytes_at (data fh) (pos fh) w in
    let fh' := set_pos (pos fh + Z.of_nat (length bs)) fh in
    if Z.of_nat (length bs) =? w
    then (inr (bytes_to_Z (_fmt_prefix fh) bs), fh')
    else (inl StructError, fh').
Proof.
  intros [Hs Hc]. unfold read_int, bind. rewrite read_fmt_unfold.
  pose proof (fmt_size_single fh 1 c) as Hsz. unfold fmt_size in Hsz.
  unfold unpack. cbv zeta. rewrite Hsz, Z.mul_1_l.
  set (sc := translate (_bigtiff fh) c) in *.
  set (bs := bytes_at (data fh) (pos fh) (size_of sc)).
  destruct (Z.of_nat (length bs) =? size_of sc) eqn:Hlen; [|reflexivity].
  apply Z.eqb_eq in Hlen.
  cbn [_convert_format codes prefix map fst snd unpack_codes].
  fold sc. replace (Z.to_nat 1) with 1%nat by reflexivity.
  cbn [unpack_rep app]. rewrite Z.mul_1_l.
  rewrite !(take_ge bs) by lia.
  rewrite decode_item_unsigned by assumption. reflexivity.
Qed.

(** ** Header resolution *)

Lemma check_endianness_spec (contents : list byte) :
  match marker_of contents with
  | Some e =>
      check_endianness (opened contents)
      = (inr tt, {| data := contents; pos := 2; written := [];
                    _fmt_prefix := e; _bigtiff := false |})
  | None =>
      exists fh, check_endianness (opened contents)
                 = (inl (IOError "Not a TIFF file"), fh)
  end.
Proof.
  unfold marker_of, check_endianness, bind, read. cbn [opened data pos].
  set (m := bytes_at contents 0 2).
  destruct (bytes_eqb m (bytes_of "II")) eqn:HII.
  { apply bytes_eqb_eq in HII. rewrite HII. reflexivity. }
  destruct (bytes_eqb m (bytes_of "MM")) eqn:HMM.
  { apply bytes_eqb_eq in HMM. rewrite HMM. reflexivity. }
  eexists. reflexivity.
Qed.

Lemma bytes_at_length (d : list byte) (p n : Z) :
  length (bytes_at d p n) = Nat.min (Z.to_nat n) (length d - Z.to_nat p).
Proof. unfold bytes_at. rewrite length_take, length_drop. reflexivity. Qed.

Lemma check_version_spec (e : endian) (contents : list byte) (b : bool) :
  let fh := {| data := contents; pos := 2; written := [];
               _fmt_prefix := e; _bigtiff := b |} in
  match version_spec e contents with
  | Some big => check_version fh = (inr tt, after_header contents e big)
  | None => exists ex fh', check_version fh = (inl ex, fh') /\ FormatError ex
  end.
Proof.
  intros fh. subst fh. unfold check_version, bind, assign_bigtiff.
  rewrite read_int_unfold by (split; [reflexivity | discriminate]).
  cbn [set_bigtiff data pos _bigtiff _fmt_prefix translate size_of written].
  cbv zeta. unfold version_spec, uint16_at.
  set (bs2 := bytes_at contents 2 2).
  destruct (Z.of_nat (length bs2) =? 2) eqn:Hl2;
    [|eexists _, _; split; [reflexivity | right; right; reflexivity]].
  apply Z.eqb_eq in Hl2. rewrite Hl2.
  destruct (bytes_to_Z e bs2 =? 42) eqn:H42; [reflexivity|].
  destruct (bytes_to_Z e bs2 =? 43) eqn:H43;
    [|eexists _, _; split; [reflexivity | left; reflexivity]].
  cbn [set_pos data pos written _fmt_prefix _bigtiff].
  rewrite read_fmt_unfold.
  cbv [_convert_format map fst snd translate set_bigtiff data pos _bigtiff
       _fmt_prefix written set_pos calcsize unpack codes prefix
       calcsize_codes size_of].
  change (1 * 2 + (1 * 2 + 0)) with 4. change (2 + 2) with 4.
  set (bs4 := bytes_at contents 4 4).
  assert (Hparts : take 2 bs4 = bytes_at contents 4 2
                   /\ take 2 (drop 2 bs4) = bytes_at contents 6 2).
  { unfold bs4, bytes_at.
    change (Z.to_nat 4) with 4%nat. change (Z.to_nat 2) with 2%nat.
    change (Z.to_nat 6) with 6%nat. split.
    - rewrite take_take. reflexivity.
    - change (take 4 (drop 4 contents)) with (take (2 + 2) (drop 4 contents)).
      rewrite <- (take_drop_commute (drop 4 contents) 2 2), drop_drop.
      rewrite take_take. reflexivity. }
  destruct Hparts as [Hp1 Hp2].
  assert (Hlens : Z.of_nat (length bs4) = 4 <->
                  Z.of_nat (length (bytes_at contents 4 2)) = 2
                  /\ Z.of_nat (length (bytes_at contents 6 2)) = 2).
  { unfold bs4. rewrite !bytes_at_length. lia. }
  destruct (Z.of_nat (length bs4) =? 4) eqn:Hl4.
  - apply Z.eqb_eq in Hl4. destruct (proj1 Hlens Hl4) as [Ha Hb].
    rewrite Ha, Hb, Z.eqb_refl.
    cbn [unpack_codes]. change (Z.to_nat 1) with 1%nat.
    change (Z.to_nat (1 * size_of SH)) with 2%nat.
    cbn [unpack_rep app size_of]. change (Z.to_nat 2) with 2%nat.
    rewrite !take_take. change (2 `min` 2)%nat with 2%nat.
    rewrite Hp1, Hp2.
    rewrite !decode_item_unsigned by (reflexivity || discriminate).
    rewrite Hl4.
    destruct (bytes_to_Z e (bytes_at contents 4 2) =? 8),
             (bytes_to_Z e (bytes_at contents 6 2) =? 0); cbn [negb orb andb];
      first [ reflexivity
            | eexists _, _; split; [reflexivity | right; left; reflexivity] ].
  - apply Z.eqb_neq in Hl4.
    assert (Hnone :
      match (if Z.of_nat (length (bytes_at contents 4 2)) =? 2
             then Some (bytes_to_Z e (bytes_at contents 4 2)) else None),
            (if Z.of_nat (length (bytes_at contents 6 2)) =? 2
             then Some (bytes_to_Z e (bytes_at contents 6 2)) else None) with
      | Some magic2, Some reserved =>
          if (magic2 =? 8) && (reserved =? 0) then Some true else None
      | _, _ => None
      end = None).
    { destruct (Z.of_nat (length (bytes_at contents 4 2)) =? 2) eqn:Ha; [|reflexivity].
      destruct (Z.of_nat (length (bytes_at contents 6 2)) =? 2) eqn:Hb; [|reflexivity].
      apply Z.eqb_eq in Ha, Hb. exfalso. apply Hl4, Hlens. split; assumption. }
    rewrite Hnone.
    eexists _, _; split; [reflexivity | right; right; reflexivity].
Qed.

Lemma header_spec_valid (contents : list byte) (e : endian) (big : bool) :
  header_spec contents = Some (e, big) <-> valid_header contents e big.
Proof.
  unfold header_spec, valid_header, version_spec.
  destruct (marker_of contents) as [e'|]; [|split; [discriminate | intros [[=] _]]].
  destruct (uint16_at e' contents 2) as [v|] eqn:Hv.
  2:{ split; [discriminate|]. intros [[= <-] [[H _]|[H _]]]; congruence. }
  destruct (v =? 42) eqn:H42.
  { apply Z.eqb_eq in H42. subst v. split.
    - intros [= <- <-]. split; [reflexivity|]. left. split; [assumption | reflexivity].
    - intros [[= <-] [[_ ->]|[H _]]]; [reflexivity | congruence]. }
  apply Z.eqb_neq in H42.
  destruct (v =? 43) eqn:H43.
  2:{ apply Z.eqb_neq in H43. split; [discriminate|].
      intros [[= <-] [[H _]|[H _]]]; congruence. }
  apply Z.eqb_eq in H43. subst v.
  destruct (uint16_at e' contents 4) as [m|] eqn:Hm.
  2:{ split; [discriminate|].
      intros [[= <-] [[H _]|[_ [H _]]]]; congruence. }
  destruct (uint16_at e' contents 6) as [r|] eqn:Hr.
  2:{ split; [discriminate|].
      intros [[= <-] [[H _]|[_ [_ [H _]]]]]; congruence. }
  destruct (Z.eqb_spec m 8) as [Hm8|Hm8]; destruct (Z.eqb_spec r 0) as [Hr0|Hr0];
    cbn [andb].
  - subst. split.
    + intros [= <- <-]. split; [reflexivity|]. right.
      split; [exact Hv|]. split; [exact Hm|]. split; [exact Hr | reflexivity].
    + intros [[= <-] [[H _]|[_ [_ [_ ->]]]]]; [congruence | reflexivity].
  - split; [discriminate|].
    intros [[= <-] [[H _]|[_ [_ [H _]]]]]; congruence.
  - split; [discriminate|].
    intros [[= <-] [[H _]|[_ [H _]]]]; congruence.
  - split; [discriminate|].
    intros [[= <-] [[H _]|[_ [H _]]]]; congruence.
Qed.

Lemma read_header_spec (contents : list byte) :
  match header_spec contents with
  | Some (e, big) =>
      read_header (opened contents) = (inr tt, after_header contents e big)
  | None =>
      exists ex fh, read_header (opened contents) = (inl ex, fh) /\ FormatError ex
  end.
Proof.
  unfold header_spec, read_header, bind.
  pose proof (check_endianness_spec contents) as He.
  destruct (marker_of contents) as [e|].
  - rewrite He.
    pose proof (check_version_spec e contents false) as Hv. cbv zeta in Hv.
    destruct (version_spec e contents) as [big|]; [exact Hv|].
    destruct Hv as (ex & fh' & Hv & Hf). rewrite Hv. eauto.
  - destruct He as [fh He]. rewrite He. eexists _, _. split; [reflexivity|].
    left. reflexivity.
Qed.

Lemma valid_header_read (contents : list byte) (e : endian) (big : bool) :
  valid_header contents e big ->
  read_header (opened contents) = (inr tt, after_header contents e big).
Proof.
  intros Hv. apply header_spec_valid in Hv.
  pose proof (read_header_spec contents) as H. rewrite Hv in H. exact H.
Qed.

(** C3. Header resolution succeeds exactly on the headers the
    specification accepts: marker "II" or "MM" selects little or big
    endianness, version 42 selects the classic widths (native long 4
    bytes, native short 2), version 43 followed by the 16-bit values 8
    and 0 selects the Big widths (8 bytes for both); on every other
    header (another marker, another version, another Big pair, or a
    file too short to hold the fields) it fails with a FormatError. *)
Theorem header_resolution (contents : list byte) :
  (forall e big,
      valid_header contents e big <->
      read_header (opened contents) = (inr tt, after_header contents e big))
  /\ (forall e big,
        fmt_size (after_header contents e big) [(1, FZ)] = (if big then 8 else 4)
        /\ fmt_size (after_header contents e big) [(1, FY)] = (if big then 8 else 2))
  /\ ((exists fh, read_header (opened contents) = (inr tt, fh)) ->
      exists e big, valid_header contents e big)
  /\ ((forall e big, ~ valid_header contents e big) ->
      exists ex fh,
        read_header (opened contents) = (inl ex, fh) /\ FormatError ex).
Proof.
  pose proof (read_header_spec contents) as H.
  split; [|split; [|split]].
  - intros e big. rewrite <- header_spec_valid.
    destruct (header_spec contents) as [[e' big']|].
    + rewrite H. split.
      * intros [= <- <-]. reflexivity.
      * intros Heq. unfold after_header in Heq.
        injection Heq as _ He Hb. subst. reflexivity.
    + destruct H as (ex & fh & H & _). rewrite H. split; discriminate.
  - intros e big. destruct big; split; reflexivity.
  - intros [fh Hfh]. destruct (header_spec contents) as [[e big]|] eqn:Hs.
    + exists e, big. apply header_spec_valid. exact Hs.
    + destruct H as (ex & fh' & H & _). rewrite H in Hfh. discriminate.
  - intros Hno. destruct (header_spec contents) as [[e big]|] eqn:Hs.
    + apply header_spec_valid in Hs. destruct (Hno _ _ Hs).
    + exact H.
Qed.

Lemma header_resolution_witness :
  read_header (opened (bytes_of "II" ++ Z_to_le 2 42))
  = (inr tt, after_header (bytes_of "II" ++ Z_to_le 2 42) LittleEndian false).
Proof.
  apply (proj1 (proj1 (header_resolution (bytes_of "II" ++ Z_to_le 2 42))
                  LittleEndian false)).
  split; [reflexivity|]. left. split; reflexivity.
Defined.

(** ** The value decoder *)

Lemma item_fmt_of_table (ty : Z) (c : fmt_char) (sz : Z) :
  item_table ty = Some (c, sz) ->
  item_fmt_of ty = ret c /\ (forall b, size_of (translate b c) = sz).
Proof.
  unfold item_table, item_fmt_of.
  repeat (match goal with
          | |- context [if ?x then _ else _] => destruct x
          end; [intros [= <- <-]; split; [reflexivity | intros []; reflexivity]|]).
  discriminate.
Qed.

Lemma value_unfold (e : TiffEntry) (c : fmt_char) (fh : TiffFile) :
  item_fmt_of (type e) = ret c ->
  value e fh
  = read_value e [(count e, c)]
      (set_pos (value_position fh e [(count e, c)]) fh).
Proof.
  intros Hc. unfold value, bind at 1. rewrite Hc. reflexivity.
Qed.

(** C4. For an entry of a supported type, the value is decoded inline,
    at the entry's start plus the widths of tag, type and count, when
    [count * item_size] is at most the slot width of the mode (4 bytes
    classic, 8 bytes Big), the boundary included; when it exceeds the
    slot width, it is decoded at the absolute offset held in the slot. *)
Theorem value_inline_threshold (fh : TiffFile) (e : TiffEntry)
    (c : fmt_char) (sz : Z) :
  item_table (type e) = Some (c, sz) ->
  (count e * sz <= slot_width fh ->
   value e fh
   = read_value e [(count e, c)]
       (set_pos (start e + (2 + 2 + slot_width fh)) fh))
  /\ (slot_width fh < count e * sz ->
      value e fh
      = read_value e [(count e, c)] (set_pos (value_offset e) fh)).
Proof.
  intros Ht. destruct (item_fmt_of_table _ _ _ Ht) as [Hc Hsz].
  rewrite (value_unfold e c fh Hc). unfold value_position.
  rewrite !fmt_size_single, Hsz.
  assert (Hslot : 1 * size_of (translate (_bigtiff fh) FZ) = slot_width fh).
  { unfold slot_width. destruct (_bigtiff fh); reflexivity. }
  assert (Hhdr : fmt_size fh [(1, FH); (1, FH); (1, FZ)] = 2 + 2 + slot_width fh).
  { unfold slot_width, fmt_size, calcsize, _convert_format.
    cbn [codes map fst snd]. destruct (_bigtiff fh); reflexivity. }
  rewrite Hslot, Hhdr. split; intros Hle.
  - apply Z.leb_le in Hle. rewrite Hle. reflexivity.
  - apply Z.leb_gt in Hle. rewrite Hle. reflexivity.
Qed.

Lemma value_inline_threshold_witness :
  let fh := after_header [] LittleEndian false in
  let e := {| start := 10; tag := 273; type := LONG; count := 1;
              value_offset := 100 |} in
  value e fh = read_value e [(1, FI)] (set_pos 18 fh).
Proof.
  intros fh e.
  apply (proj1 (value_inline_threshold fh e FI 4 eq_refl)).
  vm_compute. discriminate.
Defined.

(** The boundary on small files: a string of [count] characters is read
    in the slot of its entry when [count] is the slot width, and at the
    offset the slot holds when it is one more; classic, then Big. *)
Example inline_boundary_classic :
  let d := bytes_of "II" ++ le16 42 ++ le32 0
           ++ le16 270 ++ le16 2 ++ le32 4 ++ bytes_of "abc" ++ [x00]
           ++ le16 270 ++ le16 2 ++ le32 5 ++ le32 32
           ++ bytes_of "wxyz" ++ [x00] in
  let fh := after_header d LittleEndian false in
  fst (value {| start := 8; tag := 270; type := 2; count := 4;
                value_offset := 6513249 |} fh) = inr (Str (bytes_of "abc"))
  /\ fst (value {| start := 20; tag := 270; type := 2; count := 5;
                   value_offset := 32 |} fh) = inr (Str (bytes_of "wxyz")).
Proof. split; vm_compute; reflexivity. Qed.

Example inline_boundary_big :
  let d := bytes_of "II" ++ le16 43 ++ le16 8 ++ le16 0 ++ Z_to_le 8 0
           ++ le16 270 ++ le16 2 ++ Z_to_le 8 8 ++ bytes_of "abcdefg" ++ [x00]
           ++ le16 270 ++ le16 2 ++ Z_to_le 8 9 ++ Z_to_le 8 56
           ++ bytes_of "stuvwxyz" ++ [x00] in
  let fh := after_header d LittleEndian true in
  fst (value {| start := 16; tag := 270; type := 2; count := 8;
                value_offset := 0 |} fh) = inr (Str (bytes_of "abcdefg"))
  /\ fst (value {| start := 36; tag := 270; type := 2; count := 9;
                   value_offset := 56 |} fh) = inr (Str (bytes_of "stuvwxyz")).
Proof. split; vm_compute; reflexivity. Qed.

(** ** ASCII values *)

Lemma unpack_rep_chars (e : endian) (l : list byte) :
  unpack_rep e Sc (length l) l = map Chr l.
Proof.
  induction l as [|b l IH]; [reflexivity|].
  simpl. rewrite drop_0, IH. reflexivity.
Qed.

Lemma join_chars (l : list byte) : join (map Chr l) = inr l.
Proof.
  induction l as [|b l IH]; [reflexivity|]. cbn [map join]. rewrite IH. reflexivity.
Qed.

(** Reading [count] characters where the file holds exactly [bs]. *)
Lemma read_fmt_chars (fh : TiffFile) (n : Z) (bs : list byte) :
  n = Z.of_nat (length bs) ->
  bytes_at (data fh) (pos fh) n = bs ->
  read_fmt [(n, Fc)] fh = (inr (map Chr bs), set_pos (pos fh + n) fh).
Proof.
  intros Hn Hbs. rewrite read_fmt_unfold.
  pose proof (fmt_size_single fh n Fc) as Hsz. unfold fmt_size in Hsz.
  cbn [translate size_of] in Hsz. rewrite Z.mul_1_r in Hsz.
  cbv zeta. unfold unpack. rewrite Hsz, Hbs, <- Hn, Z.eqb_refl.
  cbn [_convert_format codes prefix map fst snd translate unpack_codes size_of].
  rewrite Z.mul_1_r, Hn, Nat2Z.id, take_ge by lia.
  rewrite unpack_rep_chars, app_nil_r. reflexivity.
Qed.

(** C7. An ASCII entry whose stored bytes are a text [T] followed by one
    null byte decodes to exactly [T]; an ASCII entry whose last stored
    byte is not the null byte fails with ValueError "String not
    null-terminated" (MalformedString). *)
Theorem ascii_value_terminator (fh : TiffFile) (e : TiffEntry)
    (T : list byte) (b : byte) :
  type e = ASCII ->
  count e = Z.of_nat (length T) + 1 ->
  bytes_at (data fh) (value_position fh e [(count e, Fc)]) (count e) = T ++ [b] ->
  (b = x00 -> fst (value e fh) = inr (Str T))
  /\ (b <> x00 ->
      fst (value e fh) = inl (ValueError "String not null-terminated")).
Proof.
  intros Hty Hn Hbs.
  assert (Hc : item_fmt_of (type e) = ret Fc) by (rewrite Hty; reflexivity).
  rewrite (value_unfold e Fc fh Hc).
  set (p := value_position fh e [(count e, Fc)]) in *.
  unfold read_value, bind.
  rewrite (read_fmt_chars (set_pos p fh) (count e) (T ++ [b]));
    [| rewrite length_app; simpl; lia | exact Hbs].
  rewrite Hty. cbn [Z.eqb ASCII Pos.eqb].
  rewrite map_app. cbn [map]. rewrite last_snoc, removelast_last, join_chars.
  cbn [item_eqb]. split.
  - intros ->. reflexivity.
  - intros Hb. destruct (Byte.eqb b x00) eqn:Heq; [|reflexivity].
    apply Byte.byte_dec_bl in Heq. contradiction.
Qed.

Lemma ascii_value_terminator_witness :
  let fh := set_pos 0 (after_header (replicate 50 x00 ++ bytes_of "Aperio" ++ [x00])
                         LittleEndian false) in
  let e := {| start := 10; tag := 270; type := ASCII; count := 7;
              value_offset := 50 |} in
  fst (value e fh) = inr (Str (bytes_of "Aperio")).
Proof.
  intros fh e.
  apply (proj1 (ascii_value_terminator fh e (bytes_of "Aperio") x00
                  eq_refl eq_refl eq_refl) eq_refl).
Defined.

(** ** Directories: duplicate tags *)

Lemma read_entries_list (n : nat) (m : gmap Z TiffEntry) (fh : TiffFile) :
  read_entries n m fh
  = match read_entry_list n fh with
    | (inl ex, fh') => (inl ex, fh')
    | (inr es, fh') => (inr (foldl (fun m e => <[tag e := e]> m) m es), fh')
    end.
Proof.
  revert m fh; induction n as [|n IH]; intros m fh; [reflexivity|].
  cbn [read_entries read_entry_list]. unfold bind.
  destruct (TiffEntry_init fh) as [[ex|e] fh1]; [reflexivity|].
  rewrite IH. destruct (read_entry_list n fh1) as [[ex|es] fh2]; reflexivity.
Qed.

Lemma lookup_foldl_insert (es : list TiffEntry) (m : gmap Z TiffEntry) (t : Z) :
  foldl (fun m e => <[tag e := e]> m) m es !! t
  = match last_with_tag t es with
    | Some e => Some e
    | None => m !! t
    end.
Proof.
  unfold last_with_tag.
  revert m; induction es as [|e es IH]; intros m; [reflexivity|].
  cbn [foldl]. rewrite IH, filter_cons.
  destruct (decide (tag e = t)) as [Heq|Hne].
  - destruct (filter (fun e => tag e = t) es) as [|e' l] eqn:Hf.
    + cbn. rewrite Heq. apply lookup_insert_eq.
    + change (last (e :: e' :: l)) with (last (e' :: l)).
      destruct (last (e' :: l)) eqn:Hl; [reflexivity|].
      apply last_None in Hl. discriminate.
  - destruct (last (filter (fun e => tag e = t) es)); [reflexivity|].
    apply lookup_insert_ne. exact Hne.
Qed.

(** C9. When the entry table of a directory holds several entries with
    the same tag, the lookup structure of the decoded directory keeps
    the one read last: every tag is mapped to the last entry of the
    table that carries it (and to nothing when no entry carries it), so
    a tag has one entry. *)
Theorem directory_entries_last_wins (in_pointer : Z) (fh fh' : TiffFile)
    (d : TiffDirectory) :
  TiffDirectory_init in_pointer fh = (inr d, fh') ->
  exists n fh1 es,
    read_int FY fh = (inr n, fh1)
    /\ read_entry_list (Z.to_nat n) fh1 = (inr es, fh')
    /\ forall t, entries d !! t = last_with_tag t es.
Proof.
  unfold TiffDirectory_init, bind. intros H.
  destruct (read_int FY fh) as [[ex|n] fh1]; [discriminate|].
  rewrite read_entries_list in H.
  destruct (read_entry_list (Z.to_nat n) fh1) as [[ex|es] fh2] eqn:Hes;
    [discriminate|].
  cbn in H. injection H as <- <-.
  exists n, fh1, es. split; [reflexivity|]. split; [exact Hes|].
  intros t. cbn [entries]. rewrite lookup_foldl_insert, lookup_empty.
  destruct (last_with_tag t es); reflexivity.
Qed.

Lemma directory_entries_last_wins_witness :
  let fh := set_pos 8 (after_header
              (bytes_of "II" ++ Z_to_le 2 42 ++ Z_to_le 4 8 ++ Z_to_le 2 2
               ++ Z_to_le 2 270 ++ Z_to_le 2 4 ++ Z_to_le 4 1 ++ Z_to_le 4 11
               ++ Z_to_le 2 270 ++ Z_to_le 2 4 ++ Z_to_le 4 1 ++ Z_to_le 4 22
               ++ Z_to_le 4 0) LittleEndian false) in
  let d := match TiffDirectory_init 4 fh with
           | (inr d, _) => d
           | _ => {| in_pointer_offset := 0; entries := ∅; out_pointer_offset := 0 |}
           end in
  exists es,
    length es = 2%nat
    /\ entries d !! 270 = last_with_tag 270 es
    /\ entries d !! 270
       = Some {| start := 22; tag := 270; type := 4; count := 1;
                 value_offset := 22 |}.
Proof.
  intros fh d.
  destruct (directory_entries_last_wins 4 fh (snd (TiffDirectory_init 4 fh)) d)
    as (n & fh1 & es & Hn & Hes & Hl).
  { vm_compute. reflexivity. }
  exists es. split; [|split; [apply Hl | vm_compute; reflexivity]].
  vm_compute in Hn. injection Hn as <- <-.
  vm_compute in Hes. injection Hes as <-. reflexivity.
Defined.

(** ** The directory walk *)

Lemma set_pos_set_pos p q fh : set_pos p (set_pos q fh) = set_pos p fh.
Proof. reflexivity. Qed.

Lemma set_pos_pos fh : set_pos (pos fh) fh = fh.
Proof. destruct fh; reflexivity. Qed.

Lemma uint_at_range fh p w v :
  uint_at fh p w = Some v -> 0 <= p -> 0 < w ->
  0 <= v /\ p + w <= Z.of_nat (length (data fh)).
Proof.
  unfold uint_at. cbv zeta.
  destruct (Z.of_nat (length (bytes_at (data fh) p w)) =? w) eqn:Hl; [|discriminate].
  intros [= <-] Hp Hw. apply Z.eqb_eq in Hl. rewrite bytes_at_length in Hl.
  split; [apply bytes_to_Z_range | lia].
Qed.

Lemma uint_at_read_int (c : fmt_char) fh p :
  unsigned_code (_bigtiff fh) c ->
  read_int c (set_pos p fh)
  = match uint_at fh p (size_of (translate (_bigtiff fh) c)) with
    | Some v => (inr v, set_pos (p + size_of (translate (_bigtiff fh) c)) fh)
    | None =>
        (inl StructError,
         set_pos (p + Z.of_nat (length (bytes_at (data fh) p
                      (size_of (translate (_bigtiff fh) c))))) fh)
    end.
Proof.
  intros Hc. rewrite read_int_unfold by exact Hc.
  unfold uint_at. cbn [set_pos data pos _bigtiff _fmt_prefix]. cbv zeta.
  destruct (_ =? _) eqn:Hl; [|reflexivity].
  apply Z.eqb_eq in Hl. rewrite Hl. reflexivity.
Qed.

Lemma read_link fh p :
  read_int FZ (set_pos p fh)
  = match link_at fh p with
    | Some v => (inr v, set_pos (p + slot_width fh) fh)
    | None =>
        (inl StructError,
         set_pos (p + Z.of_nat (length (bytes_at (data fh) p (slot_width fh)))) fh)
    end.
Proof.
  rewrite uint_at_read_int
    by (split; destruct (_bigtiff fh); [reflexivity.. | discriminate | discriminate]).
  unfold link_at, slot_width. destruct (_bigtiff fh); reflexivity.
Qed.

Lemma read_count fh p :
  read_int FY (set_pos p fh)
  = match count_at fh p with
    | Some v => (inr v, set_pos (p + short_width fh) fh)
    | None =>
        (inl StructError,
         set_pos (p + Z.of_nat (length (bytes_at (data fh) p (short_width fh)))) fh)
    end.
Proof.
  rewrite uint_at_read_int
    by (split; destruct (_bigtiff fh); [reflexivity.. | discriminate | discriminate]).
  unfold count_at, short_width. destruct (_bigtiff fh); reflexivity.
Qed.

Lemma entry_width_fmt fh :
  calcsize (_convert_format fh [(1, FH); (1, FH); (1, FZ); (1, FZ)])
  = entry_width fh.
Proof.
  unfold entry_width, slot_width, calcsize, _convert_format. cbn [codes map fst snd].
  destruct (_bigtiff fh); reflexivity.
Qed.

Lemma TiffEntry_init_ok fh x :
  0 <= x -> x + entry_width fh <= Z.of_nat (length (data fh)) ->
  exists e, TiffEntry_init (set_pos x fh) = (inr e, set_pos (x + entry_width fh) fh)
            /\ start e = x.
Proof.
  intros Hx Hlen. unfold TiffEntry_init, bind, tell.
  rewrite read_fmt_unfold. cbv zeta.
  pose proof (entry_width_fmt fh) as Hw.
  change (_convert_format (set_pos x fh)) with (_convert_format fh).
  cbn [set_pos data pos]. rewrite Hw.
  set (bs := bytes_at (data fh) x (entry_width fh)).
  assert (Hbs : Z.of_nat (length bs) = entry_width fh).
  { unfold bs. rewrite bytes_at_length.
    unfold entry_width, slot_width in *. destruct (_bigtiff fh); lia. }
  unfold unpack. rewrite Hw, Hbs, Z.eqb_refl.
  unfold _convert_format. cbn [codes prefix map fst snd].
  destruct (_bigtiff fh); cbn [translate]; simpl unpack_codes;
    eexists; split; reflexivity.
Qed.

Lemma read_entries_ok fh (k : nat) :
  forall (m : gmap Z TiffEntry) x,
    0 <= x -> x + Z.of_nat k * entry_width fh <= Z.of_nat (length (data fh)) ->
    exists m', read_entries k m (set_pos x fh)
               = (inr m', set_pos (x + Z.of_nat k * entry_width fh) fh).
Proof.
  assert (Hew : 0 < entry_width fh).
  { unfold entry_width, slot_width. destruct (_bigtiff fh); lia. }
  induction k as [|k IH]; intros m x Hx Hlen.
  - exists m. cbn [read_entries]. unfold ret. do 2 f_equal. lia.
  - cbn [read_entries]. unfold bind.
    destruct (TiffEntry_init_ok fh x Hx) as (e & He & _); [lia|].
    rewrite He.
    destruct (IH (<[tag e := e]> m) (x + entry_width fh)) as (m' & Hm'); [lia..|].
    exists m'. rewrite Hm'. do 2 f_equal. lia.
Qed.

Lemma widths_pos fh : 0 < slot_width fh /\ 0 < short_width fh /\ 0 < entry_width fh.
Proof.
  unfold entry_width, slot_width, short_width. destruct (_bigtiff fh); lia.
Qed.

Lemma TiffDirectory_init_ok fh in_pointer off n :
  count_at fh off = Some n -> 0 <= off ->
  off + short_width fh + n * entry_width fh <= Z.of_nat (length (data fh)) ->
  exists d,
    TiffDirectory_init in_pointer (set_pos off fh)
    = (inr d, set_pos (off + short_width fh + n * entry_width fh) fh)
    /\ in_pointer_offset d = in_pointer
    /\ out_pointer_offset d = off + short_width fh + n * entry_width fh.
Proof.
  intros Hn Hoff Hlen.
  destruct (widths_pos fh) as (Hw & Hs & He).
  destruct (uint_at_range _ _ _ _ Hn Hoff Hs) as [Hn0 _].
  unfold TiffDirectory_init, bind. rewrite read_count, Hn.
  destruct (read_entries_ok fh (Z.to_nat n) ∅ (off + short_width fh))
    as (m' & Hm'); [lia | rewrite Z2Nat.id by lia; lia |].
  rewrite Hm', Z2Nat.id by lia.
  eexists. split; [reflexivity|]. split; reflexivity.
Qed.

Lemma chain_start_range fh p ls :
  chain fh p ls -> 0 <= p -> p + slot_width fh <= Z.of_nat (length (data fh)).
Proof.
  destruct (widths_pos fh) as (Hw & _).
  intros Hc Hp. destruct Hc as [p H|p off n ls H _ _ _];
    apply (uint_at_range _ _ _ _ H Hp Hw).
Qed.

Lemma read_directories_chain fh p ls :
  chain fh p ls -> 0 <= p ->
  forall dirs,
  exists ds q,
    read_directories (S (length ls)) dirs (set_pos p fh)
    = Some (inr (dirs ++ ds), set_pos q fh)
    /\ Forall2 (fun d l => directory_at fh (fst l) (snd l) = Some d
                           /\ in_pointer_offset d = fst l) ds ls.
Proof.
  destruct (widths_pos fh) as (Hw & Hs & He).
  induction 1 as [p H0|p off n ls Hl Hoff Hn Hc IH]; intros Hp dirs.
  - exists [], (p + slot_width fh).
    cbn [length read_directories]. unfold bind, tell, ret.
    rewrite read_link, H0. cbn. rewrite app_nil_r. split; [reflexivity | constructor].
  - destruct (uint_at_range _ _ _ _ Hl Hp Hw) as [Hoff0 _].
    destruct (uint_at_range _ _ _ _ Hn Hoff0 Hs) as [Hn0 _].
    set (q := off + short_width fh + n * entry_width fh) in *.
    assert (Hq : 0 <= q) by (unfold q; nia).
    pose proof (chain_start_range _ _ _ Hc Hq) as Hqlen.
    destruct (TiffDirectory_init_ok fh p off n Hn Hoff0) as (d & Hd & Hin & Hout);
      [fold q; lia|]. fold q in Hd, Hout.
    destruct (IH Hq (dirs ++ [d])) as (ds & q' & Hrd & Hall).
    exists (d :: ds), q'.
    cbn [length]. remember (S (length ls)) as k eqn:Hk.
    cbn [read_directories]. unfold bind, tell, ret.
    rewrite read_link, Hl. cbn [set_pos pos].
    destruct (Z.eqb_spec off 0) as [?|_]; [contradiction|].
    unfold seek. rewrite set_pos_set_pos.
    rewrite Hd, Hrd, <- app_assoc. split; [reflexivity|].
    constructor; [|exact Hall]. cbn [fst snd]. split; [|exact Hin].
    unfold directory_at. rewrite Hd. reflexivity.
Qed.

Lemma read_directories_fuel (fuel : nat) :
  forall dirs fh r,
    read_directories fuel dirs fh = Some r ->
    forall k, read_directories (fuel + k) dirs fh = Some r.
Proof.
  induction fuel as [|fuel IH]; intros dirs fh r H k; [discriminate|].
  cbn [read_directories Nat.add] in *.
  destruct (bind tell _ fh) as [[ex|[ip off]] fh1]; [exact H|].
  destruct (off =? 0); [exact H|].
  destruct (bind (seek off) _ fh1) as [[ex|d] fh2]; [exact H|].
  apply IH. exact H.
Qed.

(** The walk over the self-linked directory never ends. *)
Lemma cyclic_walk_diverges (fuel : nat) :
  forall dirs,
    read_directories fuel dirs
      (set_pos 10 (after_header cyclic_file LittleEndian false)) = None.
Proof.
  induction fuel as [|fuel IH]; intros dirs; [reflexivity|].
  cbn [read_directories]. unfold bind, tell, ret.
  rewrite read_link.
  replace (link_at (after_header cyclic_file LittleEndian false) 10)
    with (Some 8) by (vm_compute; reflexivity).
  cbn [Z.eqb]. unfold seek. rewrite set_pos_set_pos.
  destruct (TiffDirectory_init_ok (after_header cyclic_file LittleEndian false)
              10 8 0) as (d & Hd & _);
    [vm_compute; reflexivity | lia | vm_compute; discriminate |].
  cbn [set_pos pos]. rewrite Hd.
  change (8 + short_width (after_header cyclic_file LittleEndian false)
          + 0 * entry_width (after_header cyclic_file LittleEndian false)) with 10.
  apply IH.
Qed.

Lemma cyclic_file_diverges (fuel : nat) : TiffFile_init fuel cyclic_file = None.
Proof.
  unfold TiffFile_init.
  replace (read_header (opened cyclic_file))
    with (@inr exn unit tt, after_header cyclic_file LittleEndian false)
    by (vm_compute; reflexivity).
  destruct fuel as [|fuel]; [reflexivity|].
  cbn [read_directories]. unfold bind, tell, ret.
  rewrite <- (set_pos_pos (after_header cyclic_file LittleEndian false)) at 1.
  rewrite read_link.
  replace (link_at (after_header cyclic_file LittleEndian false)
             (pos (after_header cyclic_file LittleEndian false)))
    with (Some 8) by (vm_compute; reflexivity).
  cbn [Z.eqb]. unfold seek. rewrite set_pos_set_pos.
  destruct (TiffDirectory_init_ok (after_header cyclic_file LittleEndian false)
              4 8 0)
    as (d & Hd & _);
    [vm_compute; reflexivity | lia | vm_compute; discriminate |].
  cbn [set_pos pos after_header]. cbn [set_pos pos after_header] in Hd.
  rewrite Hd.
  change (8 + short_width (after_header cyclic_file LittleEndian false)
          + 0 * entry_width (after_header cyclic_file LittleEndian false)) with 10.
  apply cyclic_walk_diverges.
Qed.

(** C10. When the links of a file, followed from the first-directory
    slot of its header, reach a 0 link after finitely many directories,
    the traversal of [TiffFile.__init__] terminates (any fuel above the
    number of directories is enough) and yields exactly the directories
    of the chain, in link order, each decoded at its offset and carrying
    the slot that points to it.  The precondition is needed: on a file
    whose directory links to itself the traversal never terminates. *)
Theorem directory_walk_terminates :
  (forall contents e big ls,
      valid_header contents e big ->
      chain (after_header contents e big) (if big then 8 else 4) ls ->
      exists ds fh',
        (forall fuel, (length ls < fuel)%nat ->
                      TiffFile_init fuel contents = Some (inr ds, fh'))
        /\ data fh' = contents
        /\ Forall2 (fun d l =>
                      directory_at (after_header contents e big) (fst l) (snd l)
                      = Some d
                      /\ in_pointer_offset d = fst l) ds ls)
  /\ (valid_header cyclic_file LittleEndian false
      /\ forall fuel, TiffFile_init fuel cyclic_file = None).
Proof.
  split.
  - intros contents e big ls Hv Hc.
    apply valid_header_read in Hv.
    set (fh := after_header contents e big) in *.
    assert (Hp : 0 <= (if big then 8 else 4)) by (destruct big; lia).
    destruct (read_directories_chain fh _ ls Hc Hp []) as (ds & q & Hrd & Hall).
    exists ds, (set_pos q fh). split; [|split; [reflexivity | exact Hall]].
    intros fuel Hfuel. unfold TiffFile_init. rewrite Hv.
    replace fuel with (S (length ls) + (fuel - S (length ls)))%nat by lia.
    apply read_directories_fuel.
    replace fh with (set_pos (if big then 8 else 4) fh) at 1
      by (unfold fh, after_header, set_pos; reflexivity).
    exact Hrd.
  - split; [|exact cyclic_file_diverges].
    split; [reflexivity|]. left. split; reflexivity.
Qed.

Lemma directory_walk_terminates_witness :
  exists ds fh',
    TiffFile_init 2 synthetic = Some (inr ds, fh') /\ length ds = 1%nat.
Proof.
  destruct (proj1 directory_walk_terminates synthetic LittleEndian false [(4, 8)])
    as (ds & fh' & Hinit & _ & Hall).
  - split; [reflexivity|]. left. split; reflexivity.
  - apply chain_link with (n := 3); [reflexivity | discriminate | reflexivity |].
    apply chain_end. reflexivity.
  - exists ds, fh'. split; [apply Hinit; simpl; lia|].
    apply Forall2_length in Hall. exact Hall.
Defined.

(** ** The scan *)

Lemma value_set_pos (e : TiffEntry) (p : Z) (fh : TiffFile) :
  fst (value e (set_pos p fh)) = fst (value e fh).
Proof.
  unfold value, bind at 1 3.
  unfold item_fmt_of, ret, raise.
  repeat (match goal with
          | |- context [if ?x then _ else _] => destruct x
          end; [reflexivity|]).
  reflexivity.
Qed.

Lemma value_cursor_only (e : TiffEntry) (fh : TiffFile) :
  exists p, snd (value e fh) = set_pos p fh.
Proof. eexists. apply (readonly_value e fh). Qed.

Lemma not_label_set_pos (p : Z) (fh : TiffFile) (d : TiffDirectory) :
  not_label fh d -> not_label (set_pos p fh) d.
Proof.
  intros [H|(e & s & He & Hv & Hs)]; [left; exact H | right].
  exists e, s. rewrite value_set_pos. auto.
Qed.

Lemma is_label_set_pos (p : Z) (fh : TiffFile) (d : TiffDirectory) :
  is_label fh d -> is_label (set_pos p fh) d.
Proof.
  intros (e & s & He & Hv & Hs). exists e, s. rewrite value_set_pos. auto.
Qed.

(** A directory that is not the label is passed over: nothing is
    written and the scan goes on with the next directory. *)
Lemma scan_not_label basicsize delete_entry d rest write_size fh :
  not_label fh d ->
  exists p,
    scan basicsize delete_entry (d :: rest) write_size fh
    = scan basicsize delete_entry rest write_size (set_pos p fh).
Proof.
  intros [H|(e & s & He & Hv & Hs)]; cbn [scan].
  - rewrite H. exists (pos fh). rewrite set_pos_pos. reflexivity.
  - rewrite He. unfold bind.
    destruct (value_cursor_only e fh) as [p Hp].
    destruct (value e fh) as [r fh1]. cbn [fst snd] in Hv, Hp. subst r fh1.
    exists p.
    destruct (startswith (bytes_of "Aperio") s); cbn [negb]; [|reflexivity].
    destruct Hs as [Hs|[Hs|Hs]]; [discriminate | |].
    + apply Nat.ltb_lt in Hs. rewrite Hs. reflexivity.
    + rewrite Hs. cbn [negb]. rewrite orb_true_r. reflexivity.
Qed.

Lemma scan_not_labels basicsize delete_entry pre rest write_size fh :
  Forall (not_label fh) pre ->
  exists p,
    scan basicsize delete_entry (pre ++ rest) write_size fh
    = scan basicsize delete_entry rest write_size (set_pos p fh).
Proof.
  revert fh; induction pre as [|d pre IH]; intros fh Hall.
  - exists (pos fh). rewrite set_pos_pos. reflexivity.
  - inversion Hall as [|? ? Hd Hpre]; subst.
    destruct (scan_not_label basicsize delete_entry d (pre ++ rest) write_size fh Hd)
      as [p Hp].
    destruct (IH (set_pos p fh)) as [q Hq].
    { eapply Forall_impl; [exact Hpre|]. intros x. apply not_label_set_pos. }
    exists q. cbn [app]. rewrite Hp, Hq, set_pos_set_pos. reflexivity.
Qed.

(** The directory that is the label is redacted. *)
Lemma scan_is_label basicsize delete_entry d rest write_size fh :
  is_label fh d ->
  exists p,
    scan basicsize delete_entry (d :: rest) write_size fh
    = redact_directory basicsize delete_entry d write_size (set_pos p fh).
Proof.
  intros (e & s & He & Hv & Ha & Hn & Hl). cbn [scan]. rewrite He. unfold bind.
  destruct (value_cursor_only e fh) as [p Hp].
  destruct (value e fh) as [r fh1]. cbn [fst snd] in Hv, Hp. subst r fh1.
  exists p. rewrite Ha, Hl. cbn [negb].
  destruct (Nat.ltb_spec (length (splitlines s)) 2) as [?|_]; [lia|]. reflexivity.
Qed.

(** ** Opening the file writes nothing *)

Lemma quiet_readonly {A} (c : M A) : readonly c -> quiet c.
Proof.
  intros H fh. specialize (H fh). rewrite H. split; reflexivity.
Qed.

#[global] Hint Resolve quiet_readonly : readonly.

Lemma quiet_bind {A B} (c : M A) (k : A -> M B) :
  quiet c -> (forall a, quiet (k a)) -> quiet (bind c k).
Proof.
  intros Hc Hk fh. unfold bind. specialize (Hc fh).
  destruct (c fh) as [[e|a] fh1]; cbn [snd] in *; [exact Hc|].
  destruct (Hk a fh1) as [Hd Hw]. destruct Hc as [Hd1 Hw1].
  split; congruence.
Qed.

Lemma quiet_read_header : quiet read_header.
Proof.
  apply quiet_bind.
  - apply quiet_bind; [auto with readonly | intros m].
    destruct (bytes_eqb m _); [intros fh; split; reflexivity|].
    destruct (bytes_eqb m _); [intros fh; split; reflexivity|].
    auto with readonly.
  - intros _. apply quiet_bind; [intros fh; split; reflexivity | intros _].
    apply quiet_bind; [auto with readonly | intros v].
    destruct (v =? 42); [auto with readonly|].
    destruct (v =? 43); [|auto with readonly].
    apply quiet_bind; [intros fh; split; reflexivity | intros _].
    apply quiet_bind; [auto with readonly | intros vals].
    repeat (match goal with
            | |- quiet (match ?x with _ => _ end) => destruct x
            end;
            try (apply quiet_readonly; (apply readonly_raise || apply readonly_ret))).
Qed.

Lemma read_header_no_write (contents : list byte) :
  data (snd (read_header (opened contents))) = contents
  /\ written (snd (read_header (opened contents))) = [].
Proof. apply (quiet_read_header (opened contents)). Qed.

Lemma read_directories_cursor_only (fuel : nat) :
  forall dirs fh r fh',
    read_directories fuel dirs fh = Some (r, fh') -> cursor_only fh fh'.
Proof.
  induction fuel as [|fuel IH]; intros dirs fh r fh' H; [discriminate|].
  cbn [read_directories] in H.
  assert (H1 : readonly (in_pointer <- tell ;;
                         directory_offset <- read_int FZ ;;
                         ret (in_pointer, directory_offset))).
  { apply readonly_bind; [apply readonly_tell | intros ip].
    apply readonly_bind; [apply readonly_read_int | intros off]. apply readonly_ret. }
  specialize (H1 fh).
  destruct (bind tell _ fh) as [[ex|[ip off]] fh1]; cbn [snd] in H1.
  { injection H as <- <-. exact H1. }
  destruct (off =? 0). { injection H as <- <-. exact H1. }
  assert (H2 : readonly (seek off ;; TiffDirectory_init ip)).
  { apply readonly_bind; [apply readonly_seek | intros _].
    apply readonly_TiffDirectory_init. }
  specialize (H2 fh1).
  destruct (bind (seek off) _ fh1) as [[ex|d] fh2]; cbn [snd] in H2.
  { injection H as <- <-. eapply cursor_only_trans; eassumption. }
  apply IH in H. eapply cursor_only_trans; [|exact H].
  eapply cursor_only_trans; eassumption.
Qed.

Lemma TiffFile_init_no_write fuel contents r fh :
  TiffFile_init fuel contents = Some (r, fh) ->
  data fh = contents /\ written fh = [].
Proof.
  unfold TiffFile_init. intros H.
  pose proof (read_header_no_write contents) as [Hd Hw].
  destruct (read_header (opened contents)) as [[ex|[]] fh1]; cbn [snd] in Hd, Hw.
  - injection H as <- <-. split; assumption.
  - apply read_directories_cursor_only in H.
    rewrite (cursor_only_data _ _ H), (cursor_only_written _ _ H). split; assumption.
Qed.

(** ** Redaction, from the open file to the outcome *)

Lemma delete_aperio_label_scan fuel basicsize contents delete_entry ds fh :
  TiffFile_init fuel contents = Some (inr ds, fh) ->
  delete_aperio_label fuel basicsize contents delete_entry
  = Some (outcome_of (scan basicsize delete_entry ds 0 fh)).
Proof.
  intros H. unfold delete_aperio_label. rewrite H.
  destruct (scan _ _ _ _ _). reflexivity.
Qed.

Lemma unterminated_file_opens :
  TiffFile_init 2 unterminated_file
  = Some (inr [unterminated_directory],
          set_pos 26 (after_header unterminated_file LittleEndian false)).
Proof. vm_compute. reflexivity. Qed.

(** C6 as stated fails on this file without label, whose redaction does
    not end in LabelNotFound: its only directory does not match the heuristic (its
    description has no terminator and cannot be decoded), and the
    redaction fails with MalformedString. *)
Lemma unterminated_description_not_label_not_found :
  TiffFile_init 2 unterminated_file
  = Some (inr [unterminated_directory],
          set_pos 26 (after_header unterminated_file LittleEndian false))
  /\ Forall (fun d => ~ is_label
                        (set_pos 26 (after_header unterminated_file LittleEndian false))
                        d) [unterminated_directory]
  /\ delete_aperio_label 2 37 unterminated_file false
     = Some {| result := inl MalformedString; file_after := unterminated_file;
               writes := [] |}
  /\ @inl exn Z MalformedString <> inl LabelNotFound.
Proof.
  split; [exact unterminated_file_opens|]. split; [|split].
  - constructor; [|constructor].
    intros (e & s & He & Hv & _).
    vm_compute in He. injection He as <-. vm_compute in Hv. discriminate.
  - vm_compute. reflexivity.
  - discriminate.
Qed.

(** C6, amended. When the file opens and every directory of the chain
    either has no [ImageDescription] or has a description that decodes
    to a text failing the heuristic, redaction fails with LabelNotFound,
    the file is byte for byte what it was and nothing has been
    written. *)
Theorem no_label_not_found fuel basicsize contents delete_entry ds fh :
  TiffFile_init fuel contents = Some (inr ds, fh) ->
  Forall (not_label fh) ds ->
  delete_aperio_label fuel basicsize contents delete_entry
  = Some {| result := inl LabelNotFound; file_after := contents; writes := [] |}.
Proof.
  intros Hinit Hall.
  rewrite (delete_aperio_label_scan _ _ _ _ _ _ Hinit).
  destruct (TiffFile_init_no_write _ _ _ _ Hinit) as [Hd Hw].
  destruct (scan_not_labels basicsize delete_entry ds [] 0 fh Hall) as [p Hp].
  rewrite app_nil_r in Hp. rewrite Hp. cbn [scan].
  unfold outcome_of, raise. cbn [fst snd set_pos data written].
  rewrite Hd, Hw. reflexivity.
Qed.

Lemma no_label_not_found_witness :
  delete_aperio_label 2 37 plain_file false
  = Some {| result := inl LabelNotFound; file_after := plain_file; writes := [] |}.
Proof.
  apply (no_label_not_found 2 37 plain_file false [plain_directory]
           (set_pos 26 (after_header plain_file LittleEndian false))).
  - vm_compute. reflexivity.
  - constructor; [|constructor]. right.
    eexists _, (bytes_of "abc"). split; [vm_compute; reflexivity|].
    split; [vm_compute; reflexivity|]. left. reflexivity.
Defined.

(** ** Directories that are not the label *)

Lemma two_directories_file_opens :
  TiffFile_init 3 two_directories_file
  = Some (inr [first_directory; label_directory],
          set_pos 68 (after_header two_directories_file LittleEndian false)).
Proof. vm_compute. reflexivity. Qed.



(** ** A label without strips *)

Lemma redact_directory_set_pos_absent basicsize delete_entry d write_size fh :
  entries d !! STRIP_OFFSETS = None \/ entries d !! STRIP_BYTE_COUNTS = None ->
  exists ex p,
    redact_directory basicsize delete_entry d write_size fh = (inl ex, set_pos p fh)
    /\ (entries d !! STRIP_OFFSETS = None
        \/ (exists eo v, entries d !! STRIP_OFFSETS = Some eo
                         /\ fst (value eo fh) = inr v) ->
        ex = MissingStripInfo).
Proof.
  intros Habs. unfold redact_directory.
  destruct (entries d !! STRIP_OFFSETS) as [eo|] eqn:Ho.
  2:{ exists MissingStripInfo, (pos fh). rewrite set_pos_pos. split; [reflexivity|].
      intros _. reflexivity. }
  destruct Habs as [?|Hl]; [discriminate|]. rewrite Hl. unfold bind.
  destruct (value_cursor_only eo fh) as [p Hp].
  destruct (value eo fh) as [[ex|v] fh1] eqn:Hval; cbn [snd] in Hp; subst fh1.
  - exists ex, p. split; [reflexivity|].
    intros [?|(eo' & v & [= <-] & Hv)]; [discriminate|].
    rewrite Hval in Hv. discriminate.
  - exists MissingStripInfo, p. split; [reflexivity|]. intros _. reflexivity.
Qed.

Lemma rational_offsets_file_opens :
  TiffFile_init 2 rational_offsets_file
  = Some (inr [rational_offsets_directory],
          set_pos 38 (after_header rational_offsets_file LittleEndian false)).
Proof. vm_compute. reflexivity. Qed.

(** C5 as stated fails on a label without [StripByteCounts] whose
    redaction does not end in MissingStripInfo: the [StripOffsets] entry is there but has the
    unsupported type 5, and decoding it fails first. *)
Lemma rational_offsets_not_missing_strip_info :
  TiffFile_init 2 rational_offsets_file
  = Some (inr [rational_offsets_directory],
          set_pos 38 (after_header rational_offsets_file LittleEndian false))
  /\ is_label (set_pos 38 (after_header rational_offsets_file LittleEndian false))
       rational_offsets_directory
  /\ entries rational_offsets_directory !! STRIP_BYTE_COUNTS = None
  /\ delete_aperio_label 2 37 rational_offsets_file false
     = Some {| result := inl UnsupportedValueType;
               file_after := rational_offsets_file; writes := [] |}
  /\ @inl exn Z UnsupportedValueType <> inl MissingStripInfo.
Proof.
  split; [exact rational_offsets_file_opens|]. split; [|split; [|split]].
  - label_by_computation.
  - vm_compute. reflexivity.
  - vm_compute. reflexivity.
  - discriminate.
Qed.

(** C5, amended. For the directory that matches the label heuristic
    (the directories before it being passed over): if [StripOffsets] or
    [StripByteCounts] is absent, redaction fails, nothing is written and
    the file is unchanged; the failure is MissingStripInfo when
    [StripOffsets] is the absent one, or when [StripOffsets] is there
    and decodes. *)
Theorem label_without_strips fuel basicsize contents delete_entry pre d rest fh :
  TiffFile_init fuel contents = Some (inr (pre ++ d :: rest), fh) ->
  Forall (not_label fh) pre ->
  is_label fh d ->
  entries d !! STRIP_OFFSETS = None \/ entries d !! STRIP_BYTE_COUNTS = None ->
  exists ex,
    delete_aperio_label fuel basicsize contents delete_entry
    = Some {| result := inl ex; file_after := contents; writes := [] |}
    /\ (entries d !! STRIP_OFFSETS = None
        \/ (exists eo v, entries d !! STRIP_OFFSETS = Some eo
                         /\ fst (value eo fh) = inr v) ->
        ex = MissingStripInfo).
Proof.
  intros Hinit Hpre Hlab Habs.
  rewrite (delete_aperio_label_scan _ _ _ _ _ _ Hinit).
  destruct (TiffFile_init_no_write _ _ _ _ Hinit) as [Hd Hw].
  destruct (scan_not_labels basicsize delete_entry pre (d :: rest) 0 fh Hpre)
    as [p Hp].
  rewrite Hp.
  destruct (scan_is_label basicsize delete_entry d rest 0 (set_pos p fh)
              (is_label_set_pos p fh d Hlab)) as [q Hq].
  rewrite Hq, set_pos_set_pos.
  destruct (redact_directory_set_pos_absent basicsize delete_entry d 0
              (set_pos q fh) Habs) as (ex & x & Hr & Hex).
  rewrite Hr. exists ex. split.
  - unfold outcome_of. cbn [fst snd set_pos data written]. rewrite Hd, Hw. reflexivity.
  - intros [H|(eo & v & Ho & Hv)]; apply Hex; [left; exact H | right].
    exists eo, v. rewrite value_set_pos. split; assumption.
Qed.

Lemma label_without_strips_witness :
  exists ex,
    delete_aperio_label 2 37 label_only_file true
    = Some {| result := inl ex; file_after := label_only_file; writes := [] |}
    /\ (entries label_only_directory !! STRIP_OFFSETS = None
        \/ (exists eo v,
              entries label_only_directory !! STRIP_OFFSETS = Some eo
              /\ fst (value eo (set_pos 26 (after_header label_only_file
                                              LittleEndian false))) = inr v) ->
        ex = MissingStripInfo).
Proof.
  apply (label_without_strips 2 37 label_only_file true [] label_only_directory []
           (set_pos 26 (after_header label_only_file LittleEndian false))).
  - vm_compute. reflexivity.
  - constructor.
  - label_by_computation.
  - left. vm_compute. reflexivity.
Defined.

(** ** Writes and the bytes they leave alone *)





Lemma store_length d p bs : (length d <= length (store d p bs))%nat.
Proof.
  unfold store. destruct bs as [|b bs]; [lia|].
  rewrite !length_app, length_take, length_replicate, length_drop. simpl length. lia.
Qed.

Lemma store_lookup_outside d p bs (i : nat) :
  (i < length d)%nat ->
  (i < Z.to_nat p \/ Z.to_nat p + length bs <= i)%nat ->
  store d p bs !! i = d !! i.
Proof.
  intros Hi Hout. unfold store. destruct bs as [|b bs]; [reflexivity|].
  set (l := b :: bs) in *.
  destruct Hout as [Hlt|Hge].
  - rewrite lookup_app_l by (rewrite length_take; lia).
    apply lookup_take_lt. exact Hlt.
  - rewrite lookup_app_r by (rewrite length_take; lia).
    rewrite lookup_app_r by (rewrite length_take, length_replicate; lia).
    rewrite lookup_app_r by (rewrite length_take, length_replicate; lia).
    rewrite lookup_drop, length_take, length_replicate. f_equal. lia.
Qed.


Lemma replay_length ws : forall d, (length d <= length (replay ws d))%nat.
Proof.
  induction ws as [|w ws IH]; intros d; cbn [replay foldl]; [lia|].
  etransitivity; [apply (store_length d (fst w) (snd w)) | apply IH].
Qed.


Lemma replay_app ws1 ws2 d : replay (ws1 ++ ws2) d = replay ws2 (replay ws1 d).
Proof. unfold replay. apply foldl_app. Qed.

Lemma bytes_at_store d p bs :
  0 <= p -> bytes_at (store d p bs) p (Z.of_nat (length bs)) = bs.
Proof.
  intros Hp. unfold bytes_at, store. rewrite Nat2Z.id.
  destruct bs as [|b bs]; [reflexivity|].
  set (l := b :: bs).
  rewrite drop_app_ge by (rewrite length_take; lia).
  rewrite drop_app_ge by (rewrite length_take, length_replicate; lia).
  rewrite length_take, length_replicate.
  replace (Z.to_nat p - Z.to_nat p `min` length d
           - (Z.to_nat p - length d))%nat with 0%nat by lia.
  rewrite drop_0. apply take_app_length.
Qed.

(** ** The writes of a redaction *)

Lemma logged_cursor_only fh fh' : cursor_only fh fh' -> logged fh fh' [].
Proof.
  intros ->. unfold logged. cbn. rewrite app_nil_r. repeat split; reflexivity.
Qed.

Lemma logged_trans fh1 fh2 fh3 W1 W2 :
  logged fh1 fh2 W1 -> logged fh2 fh3 W2 -> logged fh1 fh3 (W1 ++ W2).
Proof.
  intros (Hw1 & Hd1 & He1 & Hb1) (Hw2 & Hd2 & He2 & Hb2). unfold logged.
  rewrite Hw2, Hw1, Hd2, Hd1, He2, He1, Hb2, Hb1, replay_app, app_assoc.
  repeat split; reflexivity.
Qed.

Lemma logged_write bs fh : logged fh (snd (write bs fh)) [(pos fh, bs)].
Proof. unfold logged, write. cbn. repeat split; reflexivity. Qed.

Lemma wipe_strips_logged basicsize pairs :
  forall write_size fh,
  exists W,
    logged fh (snd (wipe_strips basicsize pairs write_size fh)) W
    /\ Forall zero_fill W.
Proof.
  induction pairs as [|[offset len] pairs IH]; intros ws fh; cbn [wipe_strips].
  - exists []. split; [apply logged_cursor_only, cursor_only_refl | constructor].
  - unfold bind.
    destruct offset as [b|o].
    { exists []. split; [apply logged_cursor_only, cursor_only_refl | constructor]. }
    unfold seek at 1.
    destruct len as [b|l].
    { exists []. split; [apply logged_cursor_only, cursor_only_set_pos | constructor]. }
    unfold ret at 1. unfold write at 1.
    match goal with
    | |- context [wipe_strips basicsize pairs ?w ?f] =>
        destruct (IH w f) as (W & HW & Hz)
    end.
    exists ((o, replicate (Z.to_nat l) x00) :: W). split.
    + apply (logged_trans _ _ _ [(o, replicate (Z.to_nat l) x00)] W
               (logged_write (replicate (Z.to_nat l) x00) (set_pos o fh))).
      exact HW.
    + constructor; [eexists; reflexivity | exact Hz].
Qed.

(** The strips of integer tuples are wiped pair by pair, and the size
    reported grows, for each strip, by the size of the string object of
    its zero bytes. *)
Lemma wipe_strips_ints basicsize strips :
  forall write_size fh,
  exists fh',
    wipe_strips basicsize (int_pairs strips) write_size fh
    = (inr (write_size + total_length strips
            + basicsize * Z.of_nat (length strips)), fh')
    /\ logged fh fh' (wipes strips).
Proof.
  induction strips as [|[o l] strips IH]; intros ws fh;
    cbn [int_pairs wipes map wipe_strips total_length fold_right length fst snd].
  - exists fh. unfold ret. split; [do 2 f_equal; lia|].
    apply logged_cursor_only, cursor_only_refl.
  - unfold bind, seek, ret, write.
    match goal with
    | |- context [wipe_strips basicsize _ ?w ?f] =>
        destruct (IH w f) as (fh' & Hrun & Hlog)
    end.
    exists fh'. fold (int_pairs strips). rewrite Hrun. split.
    + do 2 f_equal. unfold getsizeof. rewrite length_replicate.
      fold (total_length strips). lia.
    + apply (logged_trans _ _ _ [(o, replicate (Z.to_nat l) x00)] (wipes strips)
               (logged_write (replicate (Z.to_nat l) x00) (set_pos o fh))).
      exact Hlog.
Qed.


(** ** The size reported *)

Lemma link_at_is_Some fh p :
  0 <= p ->
  is_Some (link_at fh p) <-> p + slot_width fh <= Z.of_nat (length (data fh)).
Proof.
  intros Hp. destruct (widths_pos fh) as (Hw & _).
  unfold link_at, uint_at. cbv zeta. rewrite bytes_at_length.
  destruct (_ =? _) eqn:Hl.
  - apply Z.eqb_eq in Hl. split; [lia | eauto].
  - apply Z.eqb_neq in Hl. split; [intros [v Hv]; discriminate | lia].
Qed.

(** The redaction of a label whose strips are tuples of integers: the
    strips are wiped pair by pair, the shorter tuple bounding the loop;
    the size reported is the sum of the lengths plus, for each strip,
    the size of an empty string object. *)
Lemma redact_directory_wipes basicsize d write_size fh eo el offsets lengths :
  entries d !! STRIP_OFFSETS = Some eo ->
  entries d !! STRIP_BYTE_COUNTS = Some el ->
  fst (value eo fh) = inr (Tuple (map Int offsets)) ->
  fst (value el fh) = inr (Tuple (map Int lengths)) ->
  0 <= out_pointer_offset d ->
  is_Some (link_at fh (out_pointer_offset d)) ->
  exists fh',
    redact_directory basicsize false d write_size fh
    = (inr (write_size + total_length (zip offsets lengths)
            + basicsize * Z.of_nat (length (zip offsets lengths))), fh')
    /\ logged fh fh' (wipes (zip offsets lengths)).
Proof.
  intros Ho Hl Hvo Hvl Hout0 Hlink0.
  assert (Hlink : forall fh1, logged fh fh1 (wipes (zip offsets lengths)) ->
                              is_Some (link_at fh1 (out_pointer_offset d))).
  { intros fh1 (_ & Hd1 & _ & Hb1).
    apply link_at_is_Some; [exact Hout0|].
    apply link_at_is_Some in Hlink0; [|exact Hout0].
    unfold slot_width in *. rewrite Hb1, Hd1.
    pose proof (replay_length (wipes (zip offsets lengths)) (data fh)). lia. }
  unfold redact_directory. rewrite Ho, Hl. unfold bind.
  destruct (value_cursor_only eo fh) as [p Hp].
  destruct (value eo fh) as [r1 fh1]. cbn [fst snd] in Hvo, Hp. subst r1 fh1.
  pose proof (value_set_pos el p fh) as Hvl'. rewrite Hvl in Hvl'.
  destruct (value_cursor_only el (set_pos p fh)) as [q Hq].
  destruct (value el (set_pos p fh)) as [r2 fh2]. cbn [fst snd] in Hvl', Hq.
  subst r2 fh2. rewrite set_pos_set_pos. cbn [iter].
  assert (Hzip : zip (map Int offsets) (map Int lengths)
                 = int_pairs (zip offsets lengths)).
  { clear. revert lengths; induction offsets as [|o os IH]; intros [|l ls];
      [reflexivity.. |]. cbn. f_equal. apply IH. }
  rewrite Hzip.
  destruct (wipe_strips_ints basicsize (zip offsets lengths) write_size (set_pos q fh))
    as (fh3 & Hrun & Hlog).
  rewrite Hrun. unfold seek.
  destruct (Hlink fh3 Hlog) as [v Hv].
  rewrite read_link, Hv. unfold ret. cbn [set_pos].
  eexists. split; [reflexivity|].
  destruct Hlog as (H1 & H2 & H3 & H4). repeat split; assumption.
Qed.

(** C1. On the synthetic file of the specification (little-endian,
    classic, one matching directory, [StripOffsets = [100]],
    [StripByteCounts = [20]]) redaction zeroes the bytes 100..119 and
    nothing else, by one write of 20 zero bytes at offset 100; but the
    size it reports is [basicsize + 20], the size of the string object
    of 20 zero bytes ([sys.getsizeof]), where the claim has 20. *)
Theorem synthetic_redaction (basicsize : Z) :
  delete_aperio_label 2 basicsize synthetic false
  = Some {| result := inr (basicsize + 20);
            file_after := synthetic_wiped;
            writes := [(100, replicate 20 x00)] |}.
Proof. vm_compute. reflexivity. Qed.

(** ** Reading a file that agrees on the bytes read *)



Lemma read_fmt_pos f fh vals fh' :
  read_fmt f fh = (inr vals, fh') -> fh' = set_pos (pos fh + fmt_size fh f) fh.
Proof.
  rewrite read_fmt_unfold. cbv zeta. unfold unpack, fmt_size.
  destruct (_ =? _) eqn:Hl; [|discriminate].
  apply Z.eqb_eq in Hl. rewrite Hl. intros [= _ <-]. reflexivity.
Qed.


Lemma TiffEntry_init_pos fh e fh' :
  TiffEntry_init fh = (inr e, fh') -> fh' = set_pos (pos fh + entry_width fh) fh.
Proof.
  unfold TiffEntry_init, bind, tell. intros H.
  destruct (read_fmt _ fh) as [[ex|vals] fh1] eqn:Hr; [discriminate|].
  apply read_fmt_pos in Hr. unfold fmt_size in Hr. rewrite entry_width_fmt in Hr.
  subst fh1.
  repeat (match type of H with
          | context [match ?x with _ => _ end] => destruct x
          end; try discriminate).
  injection H as _ <-. reflexivity.
Qed.



(** ** Paths and chains *)









(** ** Packing an integer and reading it back *)

Lemma byte_to_Z_of_Z (z : Z) : byte_to_Z (byte_of_Z z) = z mod 256.
Proof.
  unfold byte_to_Z, byte_of_Z.
  pose proof (Z.mod_pos_bound z 256 ltac:(lia)) as Hm.
  destruct (Byte.of_N (Z.to_N (z mod 256))) as [b|] eqn:Hb.
  - apply Byte.to_of_N in Hb. rewrite Hb. lia.
  - apply Byte.of_N_None_iff in Hb. lia.
Qed.

Lemma Z_to_le_length n v : length (Z_to_le n v) = n.
Proof. revert v; induction n as [|n IH]; intros v; simpl; [|rewrite IH]; reflexivity. Qed.

Lemma le_to_Z_to_le n : forall v,
  0 <= v < 256 ^ Z.of_nat n -> le_to_Z (Z_to_le n v) = v.
Proof.
  induction n as [|n IH]; intros v Hv.
  - simpl in *. lia.
  - cbn [Z_to_le le_to_Z]. rewrite byte_to_Z_of_Z, IH.
    + pose proof (Z.div_mod v 256 ltac:(lia)). lia.
    + rewrite Nat2Z.inj_succ, Z.pow_succ_r in Hv by lia.
      split; [apply Z.div_pos; lia | apply Z.div_lt_upper_bound; lia].
Qed.

Lemma bytes_to_Z_to_bytes e n v :
  0 <= v < 256 ^ Z.of_nat n -> bytes_to_Z e (Z_to_bytes e n v) = v.
Proof.
  intros Hv. destruct e; cbn [bytes_to_Z Z_to_bytes].
  - apply le_to_Z_to_le. exact Hv.
  - rewrite rev_involutive. apply le_to_Z_to_le. exact Hv.
Qed.

Lemma Z_to_bytes_length e n v : length (Z_to_bytes e n v) = n.
Proof.
  destruct e; cbn [Z_to_bytes]; [|rewrite length_rev]; apply Z_to_le_length.
Qed.


Lemma link_at_bound fh p v :
  link_at fh p = Some v -> 0 <= v < 256 ^ slot_width fh.
Proof.
  unfold link_at, uint_at. cbv zeta.
  destruct (_ =? _) eqn:Hl; [|discriminate]. apply Z.eqb_eq in Hl.
  intros [= <-].
  pose proof (bytes_to_Z_range (_fmt_prefix fh)
                (bytes_at (data fh) p (slot_width fh))) as Hr.
  rewrite Hl in Hr. exact Hr.
Qed.

(** ** The header of a file that agrees on the header bytes *)


(** ** The directory decoded at an offset, and the slot it is reached
    from *)


(** ** The writes of a redaction that unlinks *)




(** ** The chain of the file after the splice *)









(** ** Unlinking the label *)


Lemma three_directories_file_opens :
  TiffFile_init 4 three_directories_file
  = Some (inr [first_directory; middle_label_directory; last_directory],
          set_pos 86 (after_header three_directories_file LittleEndian false)).
Proof. vm_compute. reflexivity. Qed.




(** ** The writes of a scan *)

Lemma writes_only_readonly {A} P (c : M A) : readonly c -> writes_only P c.
Proof.
  intros H fh. exists []. split; [apply logged_cursor_only, H | constructor].
Qed.

#[global] Hint Resolve writes_only_readonly : readonly.

Lemma writes_only_bind {A B} P (c : M A) (k : A -> M B) :
  writes_only P c -> (forall a, writes_only P (k a)) -> writes_only P (bind c k).
Proof.
  intros Hc Hk fh. unfold bind. destruct (Hc fh) as (W1 & Hl1 & HP1).
  destruct (c fh) as [[ex|a] fh1]; cbn [snd] in *; [exists W1; split; assumption|].
  destruct (Hk a fh1) as (W2 & Hl2 & HP2).
  exists (W1 ++ W2). split; [eapply logged_trans; eassumption|].
  apply Forall_app. split; assumption.
Qed.


Lemma writes_only_wipe_strips basicsize pairs write_size :
  writes_only zero_fill (wipe_strips basicsize pairs write_size).
Proof. intros fh. apply wipe_strips_logged. Qed.



(** ** Directories that are passed over *)



(** * Further properties of the code *)

(** ** [read_fmt] and [write_fmt] *)

Lemma size_of_pow (sc : struct_char) :
  2 ^ (8 * size_of sc) = 256 ^ Z.of_nat (Z.to_nat (size_of sc)).
Proof. destruct sc; reflexivity. Qed.

Lemma size_of_pos (sc : struct_char) : 0 < size_of sc.
Proof. destruct sc; reflexivity. Qed.

(** X1. [write_fmt] of one unsigned code and [read_fmt] of the same
    code are inverse: a value that fits the code is written as its
    [size] bytes at the cursor, which advances by [size], no other byte
    of the file changes, and reading the code at the same offset gives
    the value back; a value that does not fit raises [struct.error]
    before anything is written. *)
Theorem write_fmt_read_back (c : fmt_char) (v : Z) (fh : TiffFile) :
  unsigned_code (_bigtiff fh) c ->
  0 <= pos fh ->
  (0 <= v < 2 ^ (8 * size_of (translate (_bigtiff fh) c)) ->
   exists fh1,
     write_fmt c v fh = (inr tt, fh1)
     /\ pos fh1 = pos fh + size_of (translate (_bigtiff fh) c)
     /\ written fh1
        = written fh
          ++ [(pos fh, Z_to_bytes (_fmt_prefix fh)
                         (Z.to_nat (size_of (translate (_bigtiff fh) c))) v)]
     /\ read_int c (set_pos (pos fh) fh1)
        = (inr v, set_pos (pos fh + size_of (translate (_bigtiff fh) c)) fh1)
     /\ forall i : nat,
          (i < length (data fh))%nat ->
          Z.of_nat i < pos fh
          \/ pos fh + size_of (translate (_bigtiff fh) c) <= Z.of_nat i ->
          data fh1 !! i = data fh !! i)
  /\ (~ 0 <= v < 2 ^ (8 * size_of (translate (_bigtiff fh) c)) ->
      write_fmt c v fh = (inl StructError, fh)).
Proof.
  intros [Hs Hc] Hp.
  set (sc := translate (_bigtiff fh) c) in *.
  pose proof (size_of_pos sc) as Hw.
  unfold write_fmt, pack1. fold sc. rewrite Hs. cbv zeta. split.
  - intros Hv.
    assert (Hchk : (0 <=? v) && (v <? 2 ^ (8 * size_of sc)) = true).
    { apply andb_true_iff. split; [apply Z.leb_le | apply Z.ltb_lt]; lia. }
    rewrite Hchk.
    set (bs := Z_to_bytes (_fmt_prefix fh) (Z.to_nat (size_of sc)) v).
    assert (Hlen : Z.of_nat (length bs) = size_of sc).
    { unfold bs. rewrite Z_to_bytes_length. lia. }
    eexists. split; [reflexivity|]. unfold write. cbn [pos written data].
    split; [lia|]. split; [reflexivity|]. split.
    + rewrite read_int_unfold by (split; assumption).
      cbn [set_pos data pos _bigtiff _fmt_prefix]. fold sc. cbv zeta.
      replace (bytes_at (store (data fh) (pos fh) bs) (pos fh) (size_of sc)) with bs
        by (rewrite <- Hlen; symmetry; apply bytes_at_store; exact Hp).
      rewrite Hlen, Z.eqb_refl. unfold bs.
      rewrite bytes_to_Z_to_bytes; [reflexivity|].
      rewrite <- size_of_pow. exact Hv.
    + intros i Hi Hout. apply store_lookup_outside; [exact Hi | lia].
  - intros Hv.
    assert (Hchk : (0 <=? v) && (v <? 2 ^ (8 * size_of sc)) = false).
    { apply andb_false_iff.
      destruct (Z.leb_spec 0 v); [right | left; reflexivity].
      apply Z.ltb_ge. lia. }
    rewrite Hchk. reflexivity.
Qed.

Lemma write_fmt_read_back_witness :
  exists fh1,
    write_fmt FZ 86 (after_header synthetic LittleEndian false) = (inr tt, fh1)
    /\ read_int FZ (set_pos 4 fh1) = (inr 86, set_pos 8 fh1).
Proof.
  destruct (proj1 (write_fmt_read_back FZ 86
                     (after_header synthetic LittleEndian false)
                     ltac:(split; [reflexivity | discriminate])
                     ltac:(cbn; lia)))
    as (fh1 & Hw & _ & _ & Hr & _).
  - cbn. lia.
  - exists fh1. split; [exact Hw | exact Hr].
Defined.







(** ** Entries and directories *)

Lemma unpack_codes_cons1 e c cs (a r : list byte) :
  length a = Z.to_nat (size_of c) ->
  unpack_codes e ((1, c) :: cs) (a ++ r)
  = decode_item e c a :: unpack_codes e cs r.
Proof.
  intros Hlen. cbn [unpack_codes]. rewrite Z.mul_1_l.
  rewrite take_app_length', drop_app_length' by (symmetry; exact Hlen).
  change (Z.to_nat 1) with 1%nat. cbn [unpack_rep app].
  rewrite take_ge by lia. reflexivity.
Qed.

(** X3. [TiffEntry.__init__] decodes what the format lays out: when the
    bytes at the cursor are the encodings of a tag and a type on 16
    bits and of a count and a value slot on a native long, in the byte
    order of the file, the entry has these four fields, its [start] is
    the cursor, and the cursor ends after the entry. *)
Theorem TiffEntry_init_decodes (fh : TiffFile) (x t ty n v : Z) :
  0 <= x ->
  0 <= t < 2 ^ 16 -> 0 <= ty < 2 ^ 16 ->
  0 <= n < 256 ^ slot_width fh -> 0 <= v < 256 ^ slot_width fh ->
  bytes_at (data fh) x (entry_width fh) = encode_entry fh t ty n v ->
  TiffEntry_init (set_pos x fh)
  = (inr {| start := x; tag := t; type := ty; count := n; value_offset := v |},
     set_pos (x + entry_width fh) fh).
Proof.
  intros Hx Ht Hty Hn Hv Hbs.
  destruct (widths_pos fh) as (Hw & _).
  unfold TiffEntry_init, bind, tell. rewrite read_fmt_unfold. cbv zeta.
  change (_convert_format (set_pos x fh)) with (_convert_format fh).
  cbn [set_pos data pos]. rewrite entry_width_fmt, Hbs.
  unfold unpack. rewrite entry_width_fmt.
  assert (Hlen : Z.of_nat (length (encode_entry fh t ty n v)) = entry_width fh).
  { unfold encode_entry, entry_width.
    rewrite !length_app, !Z_to_bytes_length. lia. }
  rewrite Hlen, Z.eqb_refl.
  unfold _convert_format, encode_entry. cbn [codes prefix map fst snd].
  assert (Hsz : Z.to_nat (size_of (translate (_bigtiff fh) FZ))
                = Z.to_nat (slot_width fh)).
  { unfold slot_width. destruct (_bigtiff fh); reflexivity. }
  rewrite unpack_codes_cons1 by (rewrite Z_to_bytes_length; reflexivity).
  rewrite unpack_codes_cons1 by (rewrite Z_to_bytes_length; reflexivity).
  rewrite unpack_codes_cons1 by (rewrite Z_to_bytes_length; symmetry; exact Hsz).
  rewrite <- (app_nil_r (Z_to_bytes _ _ v)).
  rewrite unpack_codes_cons1 by (rewrite Z_to_bytes_length; symmetry; exact Hsz).
  cbn [unpack_codes].
  assert (Hu : is_signed (translate (_bigtiff fh) FZ) = false
               /\ translate (_bigtiff fh) FZ <> Sc).
  { destruct (_bigtiff fh); split; (reflexivity || discriminate). }
  destruct Hu as [Hu1 Hu2].
  rewrite !decode_item_unsigned by (assumption || reflexivity || discriminate).
  rewrite !bytes_to_Z_to_bytes
    by (try (rewrite Z2Nat.id by lia); first [assumption | cbn; lia]).
  reflexivity.
Qed.

Lemma TiffEntry_init_decodes_witness :
  TiffEntry_init (set_pos 22 (after_header synthetic LittleEndian false))
  = (inr {| start := 22; tag := 273; type := 4; count := 1; value_offset := 100 |},
     set_pos 34 (after_header synthetic LittleEndian false)).
Proof.
  apply (TiffEntry_init_decodes (after_header synthetic LittleEndian false)
           22 273 4 1 100); try (cbn; lia).
  vm_compute. reflexivity.
Defined.

Lemma TiffEntry_init_start fh e fh' :
  TiffEntry_init fh = (inr e, fh') -> start e = pos fh.
Proof.
  unfold TiffEntry_init, bind, tell. intros H.
  destruct (read_fmt _ fh) as [[ex|vals] fh1] eqn:Hr; [discriminate|].
  repeat (match type of H with
          | context [match ?x with _ => _ end] => destruct x
          end; try discriminate).
  injection H as <- _. reflexivity.
Qed.

Lemma TiffEntry_init_in_file fh e fh' :
  0 <= pos fh ->
  TiffEntry_init fh = (inr e, fh') ->
  pos fh + entry_width fh <= Z.of_nat (length (data fh)).
Proof.
  intros Hp. unfold TiffEntry_init, bind, tell.
  rewrite read_fmt_unfold. cbv zeta. unfold unpack.
  rewrite entry_width_fmt, bytes_at_length.
  destruct (widths_pos fh) as (_ & _ & He).
  destruct (_ =? _) eqn:Hl; [|discriminate].
  apply Z.eqb_eq in Hl. intros _. lia.
Qed.

Lemma read_entry_list_shape fh (k : nat) :
  forall x es fh',
    0 <= x ->
    read_entry_list k (set_pos x fh) = (inr es, fh') ->
    fh' = set_pos (x + Z.of_nat k * entry_width fh) fh
    /\ (k <> 0%nat ->
        x + Z.of_nat k * entry_width fh <= Z.of_nat (length (data fh)))
    /\ forall e, In e es ->
         exists i, 0 <= i < Z.of_nat k /\ start e = x + i * entry_width fh.
Proof.
  destruct (widths_pos fh) as (_ & _ & Hew).
  induction k as [|k IH]; intros x es fh' Hx H.
  - cbn in H. injection H as <- <-. split; [f_equal; lia|].
    split; [congruence|]. intros e [].
  - cbn [read_entry_list] in H. unfold bind in H.
    destruct (TiffEntry_init (set_pos x fh)) as [[ex|e] fh1] eqn:He; [discriminate|].
    pose proof (TiffEntry_init_start _ _ _ He) as Hs. cbn [set_pos pos] in Hs.
    pose proof (TiffEntry_init_in_file (set_pos x fh) _ _ Hx He) as Hin.
    cbn [set_pos pos data] in Hin.
    change (entry_width (set_pos x fh)) with (entry_width fh) in Hin.
    apply TiffEntry_init_pos in He. subst fh1.
    cbn [set_pos pos] in H. rewrite set_pos_set_pos in H.
    change (entry_width (set_pos x fh)) with (entry_width fh) in H.
    destruct (read_entry_list k (set_pos (x + entry_width fh) fh))
      as [[ex|es'] fh2] eqn:Hes; [discriminate|].
    injection H as <- <-.
    assert (Hx' : 0 <= x + entry_width fh) by lia.
    destruct (IH _ _ _ Hx' Hes) as (-> & Hlen & Hstarts).
    split; [f_equal; lia|]. split.
    + intros _. destruct k as [|k']; [lia|]. specialize (Hlen ltac:(discriminate)). lia.
    + intros e' [<-|Hin'].
      * exists 0. split; lia.
      * destruct (Hstarts e' Hin') as (i & Hi & Hst).
        exists (i + 1). split; lia.
Qed.

Lemma TiffDirectory_init_shape in_pointer fh p d fh' :
  0 <= p ->
  TiffDirectory_init in_pointer (set_pos p fh) = (inr d, fh') ->
  exists n,
    count_at fh p = Some n
    /\ in_pointer_offset d = in_pointer
    /\ out_pointer_offset d = p + short_width fh + n * entry_width fh
    /\ fh' = set_pos (out_pointer_offset d) fh
    /\ out_pointer_offset d <= Z.of_nat (length (data fh))
    /\ forall t e,
         entries d !! t = Some e ->
         tag e = t
         /\ exists i, 0 <= i < n
                      /\ start e = p + short_width fh + i * entry_width fh.
Proof.
  intros Hp. destruct (widths_pos fh) as (Hw & Hs & He).
  unfold TiffDirectory_init, bind, tell, ret. rewrite read_count.
  destruct (count_at fh p) as [n|] eqn:Hn; [|discriminate].
  destruct (uint_at_range _ _ _ _ Hn Hp Hs) as [Hn0 Hcl].
  rewrite read_entries_list.
  destruct (read_entry_list (Z.to_nat n) (set_pos (p + short_width fh) fh))
    as [[ex|es] fh1] eqn:Hes; [discriminate|].
  intros [= <- <-].
  assert (Hx : 0 <= p + short_width fh) by lia.
  destruct (read_entry_list_shape fh _ _ _ _ Hx Hes) as (-> & Hlen & Hst).
  rewrite Z2Nat.id in * by lia. cbn [set_pos pos in_pointer_offset out_pointer_offset entries].
  exists n. split; [reflexivity|]. split; [reflexivity|]. split; [reflexivity|].
  split; [reflexivity|]. split.
  - destruct (Z.eq_dec n 0) as [->|Hne]; [lia|]. apply Hlen. lia.
  - intros t e Hl. rewrite lookup_foldl_insert, lookup_empty in Hl.
    unfold last_with_tag in Hl.
    destruct (last (filter (fun e0 => tag e0 = t) es)) as [e'|] eqn:Hlast;
      [|discriminate].
    injection Hl as ->. apply last_Some_elem_of in Hlast.
    apply list_elem_of_filter in Hlast. destruct Hlast as [Htag Hin].
    split; [exact Htag|]. apply Hst. apply list_elem_of_In. exact Hin.
Qed.

(** X4. A directory decoded by [TiffDirectory.__init__] at offset [p]
    with entry count [n]: its [out_pointer_offset] is
    [p + short_width + n * entry_width], where the cursor is left and
    which lies in the file; every entry of its lookup structure is
    stored under its own tag and starts at one of the [n] positions of
    the table. *)
Theorem directory_layout in_pointer fh p d fh' :
  0 <= p ->
  TiffDirectory_init in_pointer (set_pos p fh) = (inr d, fh') ->
  exists n,
    count_at fh p = Some n
    /\ in_pointer_offset d = in_pointer
    /\ out_pointer_offset d = p + short_width fh + n * entry_width fh
    /\ fh' = set_pos (out_pointer_offset d) fh
    /\ out_pointer_offset d <= Z.of_nat (length (data fh))
    /\ forall t e,
         entries d !! t = Some e ->
         tag e = t
         /\ exists i, 0 <= i < n
                      /\ start e = p + short_width fh + i * entry_width fh.
Proof. apply TiffDirectory_init_shape. Qed.

Lemma directory_layout_witness :
  exists n,
    count_at (after_header synthetic LittleEndian false) 8 = Some n
    /\ out_pointer_offset
         (match TiffDirectory_init 4
                  (set_pos 8 (after_header synthetic LittleEndian false)) with
          | (inr d, _) => d
          | _ => {| in_pointer_offset := 0; entries := ∅; out_pointer_offset := 0 |}
          end) = 8 + 2 + n * 12.
Proof.
  destruct (directory_layout 4 (after_header synthetic LittleEndian false) 8
              (match TiffDirectory_init 4
                       (set_pos 8 (after_header synthetic LittleEndian false)) with
               | (inr d, _) => d
               | _ => {| in_pointer_offset := 0; entries := ∅;
                         out_pointer_offset := 0 |}
               end)
              (snd (TiffDirectory_init 4
                      (set_pos 8 (after_header synthetic LittleEndian false)))))
    as (n & Hn & _ & Hout & _).
  - lia.
  - vm_compute. reflexivity.
  - exists n. split; [exact Hn | exact Hout].
Defined.

(** ** The walk, from its result *)

Lemma chain_set_pos fh x p ls : chain (set_pos x fh) p ls -> chain fh p ls.
Proof.
  induction 1 as [p H0|p off n ls Hl Hoff Hn _ IH].
  - apply chain_end. exact H0.
  - apply chain_link with (n := n); [exact Hl | exact Hoff | exact Hn | exact IH].
Qed.

Lemma read_directories_success fh (fuel : nat) :
  forall dirs p ds fh',
    0 <= p ->
    read_directories fuel dirs (set_pos p fh) = Some (inr ds, fh') ->
    exists new ls,
      ds = dirs ++ new
      /\ chain fh p ls
      /\ Forall2 (fun d l => directory_at fh (fst l) (snd l) = Some d
                             /\ in_pointer_offset d = fst l) new ls
      /\ linked p new.
Proof.
  destruct (widths_pos fh) as (Hw & Hs & He).
  induction fuel as [|fuel IH]; intros dirs p ds fh' Hp H; [discriminate|].
  cbn [read_directories] in H. unfold bind, tell, ret in H.
  rewrite read_link in H. cbn [set_pos pos] in H.
  destruct (link_at fh p) as [off|] eqn:Hl; [|discriminate].
  destruct (uint_at_range _ _ _ _ Hl Hp Hw) as [Hoff0 _].
  destruct (Z.eqb_spec off 0) as [->|Hoff].
  - injection H as <- <-. exists [], []. rewrite app_nil_r.
    split; [reflexivity|]. split; [apply chain_end; exact Hl|].
    split; constructor.
  - unfold seek in H. rewrite set_pos_set_pos in H.
    destruct (TiffDirectory_init p (set_pos off fh)) as [[ex|d] fh2] eqn:Hd;
      [discriminate|].
    destruct (TiffDirectory_init_shape _ _ _ _ _ Hoff0 Hd)
      as (n & Hn & Hin & Hout & -> & _ & _).
    destruct (uint_at_range _ _ _ _ Hn Hoff0 Hs) as [Hn0 _].
    assert (Hq : 0 <= out_pointer_offset d) by (rewrite Hout; nia).
    destruct (IH _ _ _ _ Hq H) as (new & ls & -> & Hc & Hall & Hlk).
    exists (d :: new), ((p, off) :: ls). rewrite <- app_assoc.
    split; [reflexivity|]. split.
    + apply chain_link with (n := n); [exact Hl | exact Hoff | exact Hn|].
      rewrite <- Hout. exact Hc.
    + split; [|cbn [linked]; split; [exact Hin | exact Hlk]].
      constructor; [|exact Hall]. cbn [fst snd]. split; [|exact Hin].
      unfold directory_at. rewrite Hd. reflexivity.
Qed.

(** X5. When opening a file succeeds, the file has a header the
    specification accepts and its links reach a 0 link (the converse of
    termination on chains); the directories yielded are those of the
    chain, and they are linked: the first has the first-directory slot
    of the header (offset 4, or 8 in Big mode) as [in_pointer_offset],
    every other one the [out_pointer_offset] of the directory before
    it. *)
Theorem open_yields_linked_chain fuel contents ds fh :
  TiffFile_init fuel contents = Some (inr ds, fh) ->
  exists e big ls,
    valid_header contents e big
    /\ chain (after_header contents e big) (if big then 8 else 4) ls
    /\ Forall2 (fun d l =>
                  directory_at (after_header contents e big) (fst l) (snd l)
                  = Some d
                  /\ in_pointer_offset d = fst l) ds ls
    /\ linked (if big then 8 else 4) ds.
Proof.
  unfold TiffFile_init. intros H.
  pose proof (read_header_spec contents) as Hh.
  destruct (header_spec contents) as [[e big]|] eqn:Hs.
  - rewrite Hh in H. apply header_spec_valid in Hs.
    change (after_header contents e big)
      with (set_pos (if big then 8 else 4) (after_header contents e big)) in H.
    apply read_directories_success in H; [|destruct big; lia].
    destruct H as (new & ls & -> & Hc & Hall & Hlk).
    exists e, big, ls. auto.
  - destruct Hh as (ex & fh1 & Hh & _). rewrite Hh in H. discriminate.
Qed.

Lemma open_yields_linked_chain_witness :
  exists e big ls,
    valid_header two_directories_file e big
    /\ chain (after_header two_directories_file e big) (if big then 8 else 4) ls
    /\ linked (if big then 8 else 4) [first_directory; label_directory].
Proof.
  destruct (open_yields_linked_chain 3 two_directories_file
              [first_directory; label_directory]
              (set_pos 68 (after_header two_directories_file LittleEndian false))
              two_directories_file_opens)
    as (e & big & ls & Hv & Hc & _ & Hl).
  exists e, big, ls. auto.
Defined.

(** ** [TiffEntry.value], beyond strings *)

Lemma encode_ints_length e sz vs :
  length (encode_ints e sz vs) = (length vs * sz)%nat.
Proof.
  induction vs as [|v vs IH]; [reflexivity|].
  unfold encode_ints in *. cbn [flat_map length].
  rewrite length_app, Z_to_bytes_length, IH. lia.
Qed.

Lemma unpack_rep_ints e sc vs :
  is_signed sc = false -> sc <> Sc ->
  Forall (fun v => 0 <= v < 256 ^ size_of sc) vs ->
  unpack_rep e sc (length vs) (encode_ints e (Z.to_nat (size_of sc)) vs)
  = map Int vs.
Proof.
  intros Hs Hc. pose proof (size_of_pos sc) as Hw.
  induction 1 as [|v vs Hv _ IH]; [reflexivity|].
  unfold encode_ints in *. cbn [flat_map length unpack_rep map].
  rewrite take_app_length', drop_app_length'
    by (rewrite Z_to_bytes_length; reflexivity).
  rewrite IH, decode_item_unsigned by assumption.
  rewrite bytes_to_Z_to_bytes by (rewrite Z2Nat.id by lia; exact Hv).
  reflexivity.
Qed.

(** X6. A SHORT, LONG or LONG8 entry whose stored bytes (in the slot
    when they fit, at the offset in the slot otherwise) are the
    encodings of [count] unsigned integers decodes to the tuple of
    these integers, in order. *)
Theorem numeric_value_round_trip (fh : TiffFile) (e : TiffEntry)
    (c : fmt_char) (sz : Z) (vs : list Z) :
  item_table (type e) = Some (c, sz) ->
  type e <> ASCII ->
  count e = Z.of_nat (length vs) ->
  Forall (fun v => 0 <= v < 256 ^ sz) vs ->
  bytes_at (data fh) (value_position fh e [(count e, c)]) (count e * sz)
  = encode_ints (_fmt_prefix fh) (Z.to_nat sz) vs ->
  fst (value e fh) = inr (Tuple (map Int vs)).
Proof.
  intros Ht Hty Hn Hvs Hbs.
  destruct (item_fmt_of_table _ _ _ Ht) as [Hc Hsz].
  assert (Hu : is_signed (translate (_bigtiff fh) c) = false
               /\ translate (_bigtiff fh) c <> Sc).
  { unfold item_table in Ht.
    destruct (Z.eqb_spec (type e) ASCII); [contradiction|].
    repeat (match type of Ht with
            | context [if ?x then _ else _] => destruct x
            end; [injection Ht as <- <-;
                  destruct (_bigtiff fh); split; (reflexivity || discriminate)|]).
    discriminate. }
  destruct Hu as [Hu1 Hu2].
  rewrite (value_unfold e c fh Hc).
  set (p := value_position fh e [(count e, c)]) in *.
  unfold read_value, bind. rewrite read_fmt_unfold. cbv zeta.
  change (_convert_format (set_pos p fh)) with (_convert_format fh).
  pose proof (fmt_size_single fh (count e) c) as Hfs. unfold fmt_size in Hfs.
  rewrite Hsz in Hfs. cbn [set_pos data pos]. rewrite Hfs, Hbs.
  unfold unpack. rewrite Hfs.
  pose proof (size_of_pos (translate (_bigtiff fh) c)) as Hw. rewrite Hsz in Hw.
  assert (Hlen : Z.of_nat (length (encode_ints (_fmt_prefix fh) (Z.to_nat sz) vs))
                 = count e * sz).
  { rewrite encode_ints_length, Hn. lia. }
  rewrite Hlen, Z.eqb_refl.
  cbn [_convert_format codes prefix map fst snd unpack_codes].
  rewrite Hsz. rewrite <- Hlen, Nat2Z.id, take_ge by lia.
  rewrite Hn, Nat2Z.id, <- (Hsz (_bigtiff fh)).
  rewrite unpack_rep_ints; [| assumption | assumption |].
  - rewrite app_nil_r. destruct (Z.eqb_spec (type e) ASCII); [contradiction|].
    reflexivity.
  - rewrite Hsz. exact Hvs.
Qed.

Lemma numeric_value_round_trip_witness :
  fst (value {| start := 22; tag := 273; type := LONG; count := 1;
                value_offset := 100 |}
         (after_header synthetic LittleEndian false))
  = inr (Tuple (map Int [100])).
Proof.
  apply (numeric_value_round_trip (after_header synthetic LittleEndian false)
           {| start := 22; tag := 273; type := LONG; count := 1;
              value_offset := 100 |} FI 4 [100]).
  - reflexivity.
  - discriminate.
  - reflexivity.
  - repeat constructor; cbn; lia.
  - vm_compute. reflexivity.
Defined.

(** X7. An ASCII entry with count 0 raises [IndexError], whatever the
    file holds: the empty tuple has no last item to compare with the
    terminator. *)
Theorem empty_string_value (fh : TiffFile) (e : TiffEntry) :
  type e = ASCII -> count e = 0 ->
  fst (value e fh) = inl IndexError.
Proof.
  intros Hty Hn.
  assert (Hc : item_fmt_of (type e) = ret Fc) by (rewrite Hty; reflexivity).
  rewrite (value_unfold e Fc fh Hc). rewrite Hn.
  unfold read_value, bind. rewrite read_fmt_unfold. cbv zeta.
  unfold unpack, calcsize, _convert_format, bytes_at.
  cbn [codes prefix map fst snd calcsize_codes translate size_of Z.mul Z.add
       Z.to_nat take length Z.of_nat Z.eqb unpack_codes unpack_rep app].
  rewrite Hty. reflexivity.
Qed.

Lemma empty_string_value_witness :
  fst (value {| start := 10; tag := 270; type := ASCII; count := 0;
                value_offset := 0 |} (opened []))
  = inl IndexError.
Proof. apply empty_string_value; reflexivity. Defined.

(** X8. Decoding a value never changes the file: it only moves the
    cursor, writes nothing, and its result does not depend on where
    the cursor was. *)
Theorem value_only_reads (fh : TiffFile) (e : TiffEntry) :
  (forall p, fst (value e (set_pos p fh)) = fst (value e fh))
  /\ data (snd (value e fh)) = data fh
  /\ written (snd (value e fh)) = written fh.
Proof.
  split; [intros p; apply value_set_pos|].
  pose proof (readonly_value e fh) as H. rewrite H. split; reflexivity.
Qed.



(** ** Redaction: opening, failures, and what is written *)

(** X10. Redaction and opening: a call returns exactly when the
    directory walk of the file terminates (the scan itself is bounded);
    when opening fails, the call fails with the same exception, and
    nothing is written; and opening, whatever its result, leaves the
    bytes of the file alone. *)
Theorem redaction_opens_first fuel basicsize contents delete_entry :
  (delete_aperio_label fuel basicsize contents delete_entry = None
   <-> TiffFile_init fuel contents = None)
  /\ (forall ex fh,
        TiffFile_init fuel contents = Some (inl ex, fh) ->
        delete_aperio_label fuel basicsize contents delete_entry
        = Some {| result := inl ex; file_after := contents; writes := [] |})
  /\ (forall r fh,
        TiffFile_init fuel contents = Some (r, fh) ->
        data fh = contents /\ written fh = []).
Proof.
  split; [|split].
  - unfold delete_aperio_label.
    destruct (TiffFile_init fuel contents) as [[[ex|ds] fh]|];
      [split; discriminate | | split; reflexivity].
    destruct (scan _ _ _ _ _). split; discriminate.
  - intros ex fh H. unfold delete_aperio_label. rewrite H.
    destruct (TiffFile_init_no_write _ _ _ _ H) as [-> ->]. reflexivity.
  - intros r fh H. exact (TiffFile_init_no_write _ _ _ _ H).
Qed.

Lemma redaction_opens_first_witness :
  delete_aperio_label 2 37 (bytes_of "not a TIFF") true
  = Some {| result := inl (IOError "Not a TIFF file");
            file_after := bytes_of "not a TIFF"; writes := [] |}.
Proof.
  apply (proj1 (proj2 (redaction_opens_first 2 37 (bytes_of "not a TIFF") true))
           (IOError "Not a TIFF file")
           (set_pos 2 (opened (bytes_of "not a TIFF")))).
  vm_compute. reflexivity.
Defined.

(** X11. The first directory the scan does not pass over decides a
    failed decoding: when its [ImageDescription] does not decode, the
    redaction fails with the exception of the decoder; when it decodes
    to a tuple of numbers (a type other than ASCII), with
    [AttributeError].  In both cases nothing is written. *)
Theorem description_failure_propagates
    fuel basicsize contents delete_entry pre d rest fh e :
  TiffFile_init fuel contents = Some (inr (pre ++ d :: rest), fh) ->
  Forall (not_label fh) pre ->
  entries d !! IMAGE_DESCRIPTION = Some e ->
  (forall ex,
      fst (value e fh) = inl ex ->
      delete_aperio_label fuel basicsize contents delete_entry
      = Some {| result := inl ex; file_after := contents; writes := [] |})
  /\ (forall t,
        fst (value e fh) = inr (Tuple t) ->
        delete_aperio_label fuel basicsize contents delete_entry
        = Some {| result := inl AttributeError; file_after := contents;
                  writes := [] |}).
Proof.
  intros Hinit Hpre He.
  rewrite (delete_aperio_label_scan _ _ _ _ _ _ Hinit).
  destruct (TiffFile_init_no_write _ _ _ _ Hinit) as [Hd Hw].
  destruct (scan_not_labels basicsize delete_entry pre (d :: rest) 0 fh Hpre)
    as [p Hp].
  rewrite Hp. cbn [scan]. rewrite He. unfold bind.
  pose proof (value_set_pos e p fh) as Hv.
  destruct (value_cursor_only e (set_pos p fh)) as [q Hq].
  destruct (value e (set_pos p fh)) as [r fh1]. cbn [fst snd] in Hv, Hq. subst fh1.
  split.
  - intros ex Hex. rewrite Hex in Hv. subst r.
    unfold outcome_of. cbn [fst snd set_pos data written]. rewrite Hd, Hw.
    reflexivity.
  - intros t Ht. rewrite Ht in Hv. subst r.
    unfold outcome_of, raise. cbn [fst snd set_pos data written]. rewrite Hd, Hw.
    reflexivity.
Qed.

Lemma description_failure_propagates_witness :
  delete_aperio_label 2 37 unterminated_file true
  = Some {| result := inl MalformedString; file_after := unterminated_file;
            writes := [] |}.
Proof.
  apply (proj1 (description_failure_propagates 2 37 unterminated_file true
                  [] unterminated_directory []
                  (set_pos 26 (after_header unterminated_file LittleEndian false))
                  {| start := 10; tag := 270; type := 2; count := 4;
                     value_offset := 1684234849 |}
                  unterminated_file_opens
                  ltac:(constructor)
                  ltac:(vm_compute; reflexivity))).
  vm_compute. reflexivity.
Defined.

Lemma chain_next_slots fh p ls :
  chain fh p ls -> 0 <= p ->
  forall ds,
    Forall2 (fun d l => directory_at fh (fst l) (snd l) = Some d
                        /\ in_pointer_offset d = fst l) ds ls ->
    Forall (fun d => 0 <= out_pointer_offset d
                     /\ is_Some (link_at fh (out_pointer_offset d))) ds.
Proof.
  destruct (widths_pos fh) as (Hw & Hs & He).
  induction 1 as [p H0|p off n ls Hl Hoff Hn Hc IH]; intros Hp ds Hall.
  - inversion Hall. constructor.
  - inversion Hall as [|d ? ds' ? [Hd _] Hrest]; subst. cbn [fst snd] in Hd.
    destruct (uint_at_range _ _ _ _ Hl Hp Hw) as [Hoff0 _].
    destruct (uint_at_range _ _ _ _ Hn Hoff0 Hs) as [Hn0 _].
    unfold directory_at in Hd.
    destruct (TiffDirectory_init p (set_pos off fh)) as [[ex|d'] fh1] eqn:Hinit;
      [discriminate|].
    injection Hd as ->.
    destruct (TiffDirectory_init_shape _ _ _ _ _ Hoff0 Hinit)
      as (n' & Hn' & _ & Hout & _).
    rewrite Hn in Hn'. injection Hn' as <-.
    constructor; [|apply IH; [nia | exact Hrest]].
    rewrite Hout. split; [nia|].
    destruct Hc as [q Hq|q off' n' ls' Hq _ _ _]; eauto.
Qed.

(** After opening, the slot after each directory of the walk can be
    read. *)
Lemma walked_next_slots fuel contents ds fh :
  TiffFile_init fuel contents = Some (inr ds, fh) ->
  Forall (fun d => 0 <= out_pointer_offset d
                   /\ is_Some (link_at fh (out_pointer_offset d))) ds.
Proof.
  intros Hinit. unfold TiffFile_init in Hinit.
  pose proof (read_header_spec contents) as Hh.
  destruct (header_spec contents) as [[e big]|];
    [|destruct Hh as (ex & fh1 & Hh & _); rewrite Hh in Hinit; discriminate].
  rewrite Hh in Hinit.
  pose proof (read_directories_cursor_only _ _ _ _ _ Hinit) as Hcur.
  change (after_header contents e big)
    with (set_pos (if big then 8 else 4) (after_header contents e big)) in Hinit.
  apply read_directories_success in Hinit; [|destruct big; lia].
  destruct Hinit as (new & ls & Hnew & Hc & Hall & _). cbn [app] in Hnew.
  subst new.
  pose proof (chain_next_slots _ _ _ Hc ltac:(destruct big; lia) _ Hall) as Hs.
  rewrite Hcur. exact Hs.
Qed.

Lemma store_length_inside d p bs :
  0 <= p -> p + Z.of_nat (length bs) <= Z.of_nat (length d) ->
  length (store d p bs) = length d.
Proof.
  intros Hp Hin. unfold store. destruct bs as [|b bs]; [reflexivity|].
  rewrite !length_app, length_take, length_replicate, length_drop.
  cbn [length] in *. lia.
Qed.

Lemma replay_wipes_length strips :
  forall d,
    Forall (in_file d) strips ->
    length (replay (wipes strips) d) = length d.
Proof.
  induction strips as [|[o l] strips IH]; intros d Hall; [reflexivity|].
  apply Forall_cons in Hall. destruct Hall as [(Ho & Hl & Hin) Hall].
  cbn [fst snd] in *. cbn [wipes map replay foldl fst snd].
  fold (wipes strips).
  fold (replay (wipes strips) (store d o (replicate (Z.to_nat l) x00))).
  assert (Hlen : length (store d o (replicate (Z.to_nat l) x00)) = length d).
  { apply store_length_inside; [exact Ho|]. rewrite length_replicate. lia. }
  rewrite IH, Hlen; [reflexivity|].
  eapply Forall_impl; [exact Hall|]. intros s. unfold in_file. rewrite Hlen. tauto.
Qed.

(** X12. The redaction, without unlinking, of a label whose
    [StripOffsets] and [StripByteCounts] decode to tuples of integers
    and whose strips lie in the file: the call succeeds; its writes
    are, for each pair of an offset and a length at the same position
    (the shorter tuple bounding the loop), one write of [length] zero
    bytes at [offset], in order, and nothing else; the size it reports
    is the sum of the lengths plus, for each pair, the size of an empty
    string object; and the file keeps its length. *)
Theorem redaction_wipes_strips
    fuel basicsize contents pre M post fh eo el offsets lengths :
  TiffFile_init fuel contents = Some (inr (pre ++ M :: post), fh) ->
  Forall (not_label fh) pre ->
  is_label fh M ->
  entries M !! STRIP_OFFSETS = Some eo ->
  entries M !! STRIP_BYTE_COUNTS = Some el ->
  fst (value eo fh) = inr (Tuple (map Int offsets)) ->
  fst (value el fh) = inr (Tuple (map Int lengths)) ->
  Forall (in_file contents) (zip offsets lengths) ->
  delete_aperio_label fuel basicsize contents false
  = Some {| result := inr (total_length (zip offsets lengths)
                           + basicsize * Z.of_nat (length (zip offsets lengths)));
            file_after := replay (wipes (zip offsets lengths)) contents;
            writes := wipes (zip offsets lengths) |}
  /\ length (replay (wipes (zip offsets lengths)) contents) = length contents.
Proof.
  intros Hinit Hpre Hlab Ho Hl Hvo Hvl Hin.
  split; [|apply replay_wipes_length; exact Hin].
  rewrite (delete_aperio_label_scan _ _ _ _ _ _ Hinit).
  destruct (TiffFile_init_no_write _ _ _ _ Hinit) as [Hd Hw].
  (* the slot after M can be read *)
  assert (Hslot : 0 <= out_pointer_offset M
                  /\ is_Some (link_at fh (out_pointer_offset M))).
  { pose proof (walked_next_slots _ _ _ _ Hinit) as Hs.
    apply Forall_app in Hs. destruct Hs as [_ Hs].
    inversion Hs; subst. assumption. }
  destruct Hslot as [Hout0 Hsome].
  destruct (scan_not_labels basicsize false pre (M :: post) 0 fh Hpre) as [p Hp].
  rewrite Hp.
  destruct (scan_is_label basicsize false M post 0 (set_pos p fh)
              (is_label_set_pos p fh M Hlab)) as [q Hq].
  rewrite Hq, set_pos_set_pos.
  destruct (redact_directory_wipes basicsize M 0 (set_pos q fh) eo el offsets lengths
              Ho Hl) as (fh' & Hrun & Hlog).
  - rewrite value_set_pos. exact Hvo.
  - rewrite value_set_pos. exact Hvl.
  - exact Hout0.
  - exact Hsome.
  - rewrite Hrun. destruct Hlog as (Hw' & Hd' & _).
    unfold outcome_of. cbn [fst snd set_pos data written] in *.
    rewrite Hw', Hd', Hw, Hd. reflexivity.
Qed.

Lemma redaction_wipes_strips_witness :
  delete_aperio_label 3 37 two_directories_file false
  = Some {| result := inr (total_length (zip [104] [4])
                           + 37 * Z.of_nat (length (zip [104] [4])));
            file_after := replay (wipes (zip [104] [4])) two_directories_file;
            writes := wipes (zip [104] [4]) |}
  /\ length (replay (wipes (zip [104] [4])) two_directories_file)
     = length two_directories_file.
Proof.
  apply (redaction_wipes_strips 3 37 two_directories_file
           [first_directory] label_directory []
           (set_pos 68 (after_header two_directories_file LittleEndian false))
           {| start := 40; tag := 273; type := 4; count := 1; value_offset := 104 |}
           {| start := 52; tag := 279; type := 4; count := 1; value_offset := 4 |}
           [104] [4]).
  - exact two_directories_file_opens.
  - constructor; [|constructor]. left. vm_compute. reflexivity.
  - label_by_computation.
  - vm_compute. reflexivity.
  - vm_compute. reflexivity.
  - vm_compute. reflexivity.
  - vm_compute. reflexivity.
  - constructor; [|constructor]. unfold in_file. cbn [fst snd].
    change (length two_directories_file) with 108%nat. lia.
Defined.

(** ** Without unlinking, only zero bytes are written *)

Lemma store_zero_lookup d p n (i : nat) b :
  store d p (replicate n x00) !! i = Some b -> d !! i = Some b \/ b = x00.
Proof.
  unfold store. destruct (replicate n x00) as [|z zs] eqn:Hz; [auto|].
  rewrite <- Hz. clear Hz z zs. intros H.
  apply lookup_app_Some in H. destruct H as [H|[Hge H]].
  { left. apply lookup_take_Some in H. tauto. }
  apply lookup_app_Some in H. destruct H as [H|[_ H]].
  { right. apply lookup_replicate in H. tauto. }
  apply lookup_app_Some in H. destruct H as [H|[Hge' H]].
  { right. apply lookup_replicate in H. tauto. }
  left. rewrite lookup_drop in H.
  rewrite !length_take, !length_replicate in *.
  pose proof (lookup_lt_Some _ _ _ H) as Hlt.
  replace i with (Z.to_nat p + n
                  + (i - Z.to_nat p `min` length d - (Z.to_nat p - length d) - n))%nat
    at 1 by lia.
  exact H.
Qed.

Lemma replay_zero_lookup ws :
  Forall zero_fill ws ->
  forall d (i : nat) b, replay ws d !! i = Some b -> d !! i = Some b \/ b = x00.
Proof.
  induction 1 as [|[p bs] ws [n Hn] _ IH]; intros d i b Hb; cbn [replay foldl] in *.
  - left. exact Hb.
  - cbn [fst snd] in *. subst bs.
    destruct (IH _ _ _ Hb) as [H|H]; [|right; exact H].
    eapply store_zero_lookup. exact H.
Qed.

Lemma redact_directory_zero_fills basicsize d write_size :
  writes_only zero_fill (redact_directory basicsize false d write_size).
Proof.
  unfold redact_directory.
  destruct (entries d !! STRIP_OFFSETS) as [eo|]; [|auto with readonly].
  apply writes_only_bind; [auto with readonly | intros offsets].
  destruct (entries d !! STRIP_BYTE_COUNTS) as [el|]; [|auto with readonly].
  apply writes_only_bind; [auto with readonly | intros lengths].
  apply writes_only_bind; [apply writes_only_wipe_strips | intros ws'].
  apply writes_only_bind; [auto with readonly | intros _].
  apply writes_only_bind; [auto with readonly | intros v].
  intros fh. unfold bind, seek, ret.
  exists []. split; [apply logged_cursor_only, cursor_only_set_pos | constructor].
Qed.

Lemma scan_zero_fills basicsize dirs write_size :
  writes_only zero_fill (scan basicsize false dirs write_size).
Proof.
  induction dirs as [|d dirs IH]; cbn [scan]; [auto with readonly|].
  destruct (entries d !! IMAGE_DESCRIPTION) as [e|]; [|exact IH].
  apply writes_only_bind; [auto with readonly | intros desc].
  destruct desc as [s|t]; [|auto with readonly].
  destruct (negb _); [exact IH|].
  destruct (_ || _); [exact IH|].
  apply redact_directory_zero_fills.
Qed.

(** X13. Without unlinking, whatever the file and however the call
    ends (also with an exception after some strips were wiped): every
    write is a run of zero bytes; the file after the call is the
    original with these writes applied; it is not shorter than the
    original; and each of its bytes is the byte the original had at this
    offset, or zero. *)
Theorem redaction_only_zeroes fuel basicsize contents o :
  delete_aperio_label fuel basicsize contents false = Some o ->
  Forall zero_fill (writes o)
  /\ file_after o = replay (writes o) contents
  /\ (length contents <= length (file_after o))%nat
  /\ forall (i : nat) b,
       file_after o !! i = Some b -> contents !! i = Some b \/ b = x00.
Proof.
  intros H.
  assert (Hlog : Forall zero_fill (writes o)
                 /\ file_after o = replay (writes o) contents).
  { destruct (TiffFile_init fuel contents) as [[[ex|ds] fh]|] eqn:Hinit.
    - destruct (TiffFile_init_no_write _ _ _ _ Hinit) as [Hd Hw].
      unfold delete_aperio_label in H. rewrite Hinit in H. injection H as <-.
      cbn [writes file_after]. rewrite Hd, Hw. split; [constructor | reflexivity].
    - destruct (TiffFile_init_no_write _ _ _ _ Hinit) as [Hd Hw].
      rewrite (delete_aperio_label_scan _ _ _ _ _ _ Hinit) in H. injection H as <-.
      destruct (scan_zero_fills basicsize ds 0 fh) as (W & (Hw' & Hd' & _) & HW).
      unfold outcome_of. cbn [writes file_after].
      rewrite Hw', Hd', Hw, Hd. cbn [app]. split; [exact HW | reflexivity].
    - unfold delete_aperio_label in H. rewrite Hinit in H. discriminate. }
  destruct Hlog as [HW Hfile]. split; [exact HW|]. split; [exact Hfile|].
  rewrite Hfile. split; [apply replay_length|].
  intros i b. apply replay_zero_lookup. exact HW.
Qed.

Lemma redaction_only_zeroes_witness :
  Forall zero_fill [(100, replicate 20 x00)]
  /\ synthetic_wiped = replay [(100, replicate 20 x00)] synthetic
  /\ (length synthetic <= length synthetic_wiped)%nat
  /\ forall (i : nat) b,
       synthetic_wiped !! i = Some b -> synthetic !! i = Some b \/ b = x00.
Proof.
  apply (redaction_only_zeroes 2 37 synthetic
           {| result := inr 57; file_after := synthetic_wiped;
              writes := [(100, replicate 20 x00)] |}).
  vm_compute. reflexivity.
Defined.

(** ** The label heuristic *)

Lemma startswith_prefix p s : startswith p s = true <-> exists t, s = p ++ t.
Proof.
  revert s. induction p as [|x p IH]; intros s; cbn [startswith].
  - split; eauto.
  - destruct s as [|y s].
    + split; [discriminate | intros [t Ht]; discriminate].
    + rewrite andb_true_iff, IH. split.
      * intros [Hxy [t ->]]. apply Byte.byte_dec_bl in Hxy. subst. eauto.
      * intros [t [= -> ->]]. split; [apply Byte.byte_dec_lb; reflexivity | eauto].
Qed.

Lemma splitlines_from_unbroken first :
  unbroken first = true ->
  forall cur rest,
    splitlines_from cur (first ++ rest) = splitlines_from (rev first ++ cur) rest.
Proof.
  induction first as [|c first IH]; intros Hu cur rest; [reflexivity|].
  cbn [unbroken forallb] in Hu. apply andb_true_iff in Hu. destruct Hu as [Hc Hu].
  unfold is_break in Hc. apply negb_true_iff, orb_false_iff in Hc.
  destruct Hc as [Hd Ha].
  cbn [app splitlines_from rev]. rewrite Hd, Ha, (IH Hu), <- app_assoc. reflexivity.
Qed.

(** The first line: the text up to the first line break. *)
Lemma splitlines_from_first s :
  forall cur,
  exists first,
    unbroken first = true
    /\ ((s = first
         /\ splitlines_from cur s
            = match rev cur ++ first with [] => [] | l => [l] end)
        \/ exists brk t,
             s = first ++ brk ++ t
             /\ (brk = [x0a] \/ brk = [x0d] \/ brk = [x0d; x0a])
             /\ splitlines_from cur s = (rev cur ++ first) :: splitlines_from [] t).
Proof.
  induction s as [|c rest IH]; intros cur.
  - exists []. split; [reflexivity|]. left. split; [reflexivity|].
    rewrite app_nil_r. cbn [splitlines_from].
    destruct cur as [|x cur]; [reflexivity|].
    cbn [rev]. destruct (rev cur ++ [x]) eqn:E; [|reflexivity].
    apply app_eq_nil in E. destruct E as [_ E]. discriminate.
  - cbn [splitlines_from].
    destruct (Byte.eqb c x0d) eqn:Hd.
    { apply Byte.byte_dec_bl in Hd. subst c.
      exists []. split; [reflexivity|]. right. rewrite app_nil_r.
      destruct rest as [|c' rest'].
      - exists [x0d], []. repeat split; auto.
      - destruct (Byte.eqb c' x0a) eqn:Ha.
        + apply Byte.byte_dec_bl in Ha. subst c'.
          exists [x0d; x0a], rest'. repeat split; auto.
        + exists [x0d], (c' :: rest'). repeat split; auto. }
    destruct (Byte.eqb c x0a) eqn:Ha.
    { apply Byte.byte_dec_bl in Ha. subst c.
      exists []. split; [reflexivity|]. right. rewrite app_nil_r.
      exists [x0a], rest. repeat split; auto. }
    destruct (IH (c :: cur)) as (first & Hu & Hcase).
    exists (c :: first). split.
    { cbn [unbroken forallb]. unfold is_break. rewrite Hd, Ha. exact Hu. }
    cbn [rev] in Hcase. rewrite <- app_assoc in Hcase. cbn [app] in Hcase.
    destruct Hcase as [[-> Hs]|(brk & t & -> & Hb & Hs)].
    + left. split; [reflexivity | exact Hs].
    + right. exists brk, t. repeat split; [exact Hb | exact Hs].
Qed.

Lemma startswith_before_break p :
  unbroken p = true ->
  forall first b rest,
    is_break b = true ->
    startswith p (first ++ b :: rest) = true ->
    exists x, first = p ++ x.
Proof.
  induction p as [|x p IH]; intros Hu first b rest Hb Hs; [eauto|].
  cbn [unbroken forallb] in Hu. apply andb_true_iff in Hu. destruct Hu as [Hx Hu].
  destruct first as [|y first]; cbn [app startswith] in Hs;
    apply andb_true_iff in Hs; destruct Hs as [Hxy Hs];
    apply Byte.byte_dec_bl in Hxy; subst.
  - rewrite Hb in Hx. discriminate.
  - destruct (IH Hu _ _ _ Hb Hs) as [t ->]. eauto.
Qed.

Lemma splitlines_from_head cur t :
  cur <> [] -> exists l ls, splitlines_from cur t = (rev cur ++ l) :: ls.
Proof.
  intros Hcur.
  destruct (splitlines_from_first t cur) as (l & _ & [[_ H]|(brk & t' & _ & _ & H)]);
    rewrite H; [|eauto].
  destruct (rev cur ++ l) eqn:E; [|rewrite <- E; eauto].
  apply app_eq_nil in E. destruct E as [E _].
  apply (f_equal (@rev byte)) in E. rewrite rev_involutive in E. contradiction.
Qed.

Lemma label_text_test s :
  label_text s
  <-> startswith (bytes_of "Aperio") s = true
      /\ (2 <= length (splitlines s))%nat
      /\ startswith (bytes_of "label ") (nth 1 (splitlines s) []) = true.
Proof.
  split.
  - intros (first & brk & tail & -> & Hu & Hbrk).
    split; [apply startswith_prefix; eauto|].
    unfold splitlines.
    rewrite (splitlines_from_unbroken (bytes_of "Aperio") eq_refl).
    rewrite (splitlines_from_unbroken first Hu).
    set (cur := rev first ++ rev (bytes_of "Aperio") ++ []).
    assert (Hstep : splitlines_from cur (brk ++ bytes_of "label " ++ tail)
                    = rev cur :: splitlines_from (rev (bytes_of "label ")) tail).
    { rewrite <- (app_nil_r (rev (bytes_of "label "))).
      rewrite <- (splitlines_from_unbroken (bytes_of "label ") eq_refl).
      destruct Hbrk as [->|[->| ->]]; reflexivity. }
    rewrite Hstep.
    destruct (splitlines_from_head (rev (bytes_of "label ")) tail ltac:(discriminate))
      as (l & ls & H).
    rewrite H, rev_involutive. split; [cbn [length]; lia|].
    cbn [nth]. apply startswith_prefix. eauto.
  - intros (Ha & Hn & Hl). unfold splitlines in *.
    destruct (splitlines_from_first s []) as (first0 & Hu0 & Hcase).
    destruct Hcase as [[_ H]|(brk & t & Hs & Hb & H)].
    { rewrite H in Hn. destruct (rev [] ++ first0); cbn in Hn; lia. }
    rewrite H in Hl. cbn [nth rev app] in Hl. clear H Hn.
    (* the second line starts the rest of the text *)
    assert (Ht : exists tail, t = bytes_of "label " ++ tail).
    { destruct (splitlines_from_first t []) as (first1 & _ & Hcase).
      destruct Hcase as [[-> H]|(brk1 & t1 & -> & _ & H)];
        rewrite H in Hl; cbn [rev app] in Hl.
      - destruct first1; [discriminate Hl|].
        cbn [nth] in Hl. apply startswith_prefix in Hl. exact Hl.
      - cbn [nth] in Hl. apply startswith_prefix in Hl. destruct Hl as [x ->].
        rewrite <- app_assoc. eauto. }
    destruct Ht as [tail ->].
    (* "Aperio" is on the first line *)
    assert (Hf : exists first, first0 = bytes_of "Aperio" ++ first).
    { subst s.
      destruct Hb as [->|[->| ->]];
        eapply (startswith_before_break (bytes_of "Aperio") eq_refl);
        try exact Ha; reflexivity. }
    destruct Hf as [first ->].
    exists first, brk, tail. rewrite <- app_assoc in Hs.
    split; [exact Hs|]. split; [|exact Hb].
    unfold unbroken in *. rewrite forallb_app in Hu0.
    apply andb_true_iff in Hu0. tauto.
Qed.

(** X14. Which descriptions make a directory the label: the text
    "Aperio", the rest of the first line, one line break (["\n"],
    ["\r"] or ["\r\n"]) and a second line that starts with "label ".
    A directory with such a description is redacted and the scan ends;
    with any other text the scan goes on with the directories after
    it. *)
Theorem label_heuristic basicsize delete_entry d rest write_size fh e s :
  entries d !! IMAGE_DESCRIPTION = Some e ->
  fst (value e fh) = inr (Str s) ->
  (label_text s ->
   scan basicsize delete_entry (d :: rest) write_size fh
   = redact_directory basicsize delete_entry d write_size (snd (value e fh)))
  /\ (~ label_text s ->
      scan basicsize delete_entry (d :: rest) write_size fh
      = scan basicsize delete_entry rest write_size (snd (value e fh))).
Proof.
  intros He Hv. cbn [scan]. rewrite He. unfold bind.
  destruct (value e fh) as [r fh1]. cbn [fst snd] in *. subst r.
  pose proof (label_text_test s) as Htest.
  destruct (startswith (bytes_of "Aperio") s) eqn:Ha; cbn [negb].
  2:{ split; [|reflexivity]. intros Hl. apply Htest in Hl.
      destruct Hl as [Hl _]. discriminate. }
  destruct (Nat.ltb_spec (length (splitlines s)) 2) as [Hn|Hn]; cbn [orb].
  { split; [|reflexivity]. intros Hl. apply Htest in Hl. lia. }
  destruct (startswith (bytes_of "label ") (nth 1 (splitlines s) [])) eqn:Hl;
    cbn [negb].
  - split; [reflexivity|]. intros Hnot. exfalso. apply Hnot, Htest. auto.
  - split; [|reflexivity]. intros Hlab. apply Htest in Hlab.
    destruct Hlab as (_ & _ & Hlab). discriminate.
Qed.

Lemma label_heuristic_witness :
  scan 37 true [label_directory] 0
    (set_pos 68 (after_header two_directories_file LittleEndian false))
  = redact_directory 37 true label_directory 0
      (snd (value {| start := 28; tag := 270; type := 2; count := 36;
                     value_offset := 68 |}
              (set_pos 68 (after_header two_directories_file LittleEndian false)))).
Proof.
  apply (proj1 (label_heuristic 37 true label_directory [] 0
                  (set_pos 68 (after_header two_directories_file LittleEndian false))
                  {| start := 28; tag := 270; type := 2; count := 36;
                     value_offset := 68 |}
                  label_description
                  ltac:(vm_compute; reflexivity) ltac:(vm_compute; reflexivity))).
  exists (bytes_of " Image"), [x0a], (bytes_of "12345x6789 (3x2)").
  repeat split; auto.
Defined.

(** ** The loop over the files *)

Lemma strip_labels_spec fuel basicsize remove_header paths :
  forall exit_code fs,
    NoDup paths ->
    Forall (walk_ends fuel fs) paths ->
    exists code fs',
      strip_labels fuel basicsize remove_header paths exit_code fs
      = Some (code, fs')
      /\ ((code = exit_code
           /\ Forall (succeeds fuel basicsize remove_header fs) paths)
          \/ (code = 1
              /\ Exists (fails fuel basicsize remove_header fs) paths))
      /\ (forall f, ~ In f paths -> fs' !! f = fs !! f)
      /\ (forall f contents,
            In f paths -> fs !! f = Some contents ->
            exists o,
              delete_aperio_label fuel basicsize contents remove_header = Some o
              /\ fs' !! f = Some (file_after o)).
Proof.
  induction paths as [|f paths IH]; intros exit_code fs Hnd Hends.
  - exists exit_code, fs. split; [reflexivity|]. split; [left; auto|].
    split; [reflexivity|]. intros f c Hin. destruct Hin.
  - apply NoDup_cons in Hnd. destruct Hnd as [Hf Hnd].
    apply Forall_cons in Hends. destruct Hends as [Hend Hends].
    cbn [strip_labels]. unfold strip_label.
    (* the state after [f], and what it keeps *)
    assert (Hstep : exists code1 fs1,
               match fs !! f with
               | None => Some (1, fs)
               | Some contents =>
                   match delete_aperio_label fuel basicsize contents remove_header
                   with
                   | None => None
                   | Some o =>
                       Some (match result o with
                             | inl _ => 1 | inr _ => exit_code end,
                             <[f := file_after o]> fs)
                   end
               end = Some (code1, fs1)
               /\ (forall g, g <> f -> fs1 !! g = fs !! g)
               /\ ((code1 = exit_code /\ succeeds fuel basicsize remove_header fs f)
                   \/ (code1 = 1 /\ fails fuel basicsize remove_header fs f))
               /\ (forall contents, fs !! f = Some contents ->
                     exists o,
                       delete_aperio_label fuel basicsize contents remove_header
                       = Some o
                       /\ fs1 !! f = Some (file_after o))).
    { destruct (fs !! f) as [c|] eqn:Hc.
      - destruct (delete_aperio_label fuel basicsize c remove_header) as [o|] eqn:Ho.
        + eexists _, _. split; [reflexivity|].
          split; [intros g Hg; apply lookup_insert_ne; congruence|].
          split.
          * destruct (result o) as [ex|n] eqn:Hr.
            -- right. split; [reflexivity|]. right. exists c, o, ex. auto.
            -- left. split; [reflexivity|]. exists c, o, n. auto.
          * intros c' [= <-]. exists o. split; [exact Ho|].
            apply lookup_insert_eq.
        + exfalso. apply (Hend c Hc).
          unfold delete_aperio_label in Ho.
          destruct (TiffFile_init fuel c) as [[[ex|ds] fh]|]; [discriminate | | reflexivity].
          destruct (scan _ _ _ _ _). discriminate.
      - exists 1, fs. split; [reflexivity|]. split; [reflexivity|].
        split; [right; split; [reflexivity | left; exact Hc]|].
        intros c' [=]. }
    destruct Hstep as (code1 & fs1 & -> & Hkeep & Hres & Hfile).
    assert (Hsame : forall g, In g paths -> fs1 !! g = fs !! g).
    { intros g Hg. apply Hkeep. intros ->. apply Hf, list_elem_of_In, Hg. }
    destruct (IH code1 fs1 Hnd) as (code & fs' & Hrun & Hcode & Hout & Hin).
    { rewrite Forall_forall in Hends |- *. intros g Hg c Hc.
      apply (Hends g Hg c). rewrite <- (Hsame g (proj1 (list_elem_of_In _ _) Hg)).
      exact Hc. }
    exists code, fs'. split; [exact Hrun|].
    assert (Hsucc : forall g, In g paths ->
              succeeds fuel basicsize remove_header fs1 g
              -> succeeds fuel basicsize remove_header fs g).
    { intros g Hg (c & o & n & H1 & H2). exists c, o, n.
      rewrite <- (Hsame g Hg). auto. }
    assert (Hfail : forall g, In g paths ->
              fails fuel basicsize remove_header fs1 g
              -> fails fuel basicsize remove_header fs g).
    { intros g Hg [H|(c & o & ex & H1 & H2)].
      - left. rewrite <- (Hsame g Hg). exact H.
      - right. exists c, o, ex. rewrite <- (Hsame g Hg). auto. }
    split; [|split].
    + destruct Hcode as [[-> Hall]|[-> Hex]].
      * destruct Hres as [[-> Hs]|[-> Hfl]].
        -- left. split; [reflexivity|]. constructor; [exact Hs|].
           rewrite Forall_forall in Hall |- *. intros g Hg.
           apply Hsucc; [apply list_elem_of_In, Hg | auto].
        -- right. split; [reflexivity|]. apply Exists_cons_hd. exact Hfl.
      * right. split; [reflexivity|]. apply Exists_cons_tl.
        rewrite Exists_exists in Hex |- *.
        destruct Hex as (g & Hg & Hgf). exists g. split; [exact Hg|].
        apply Hfail; [apply list_elem_of_In, Hg | exact Hgf].
    + intros g Hg. cbn [In] in Hg.
      rewrite (Hout g) by tauto. apply Hkeep. intros ->. tauto.
    + intros g c Hg Hc. destruct Hg as [<-|Hg].
      * destruct (Hfile c Hc) as (o & Ho & Ho'). exists o. split; [exact Ho|].
        rewrite (Hout f); [exact Ho'|]. intros Hg'. apply Hf, list_elem_of_In, Hg'.
      * apply (Hin g c Hg). rewrite (Hsame g Hg). exact Hc.
Qed.


(** X15. The loop over the files, for paths that are pairwise
    different and files whose walks end: the loop reaches [sys.exit],
    a file that fails does not stop it; the exit code is 0 when the
    redaction of every file returns normally, and 1 when some path
    names no file or the redaction of some file raises; a file that is
    not listed is not changed; and each listed file is left as the
    redaction of its original contents leaves it, also when this
    redaction raises. *)
Theorem batch_outcome fuel basicsize remove_header paths fs :
  NoDup paths ->
  Forall (walk_ends fuel fs) paths ->
  exists code fs',
    strip_labels fuel basicsize remove_header paths 0 fs = Some (code, fs')
    /\ ((code = 0 /\ Forall (succeeds fuel basicsize remove_header fs) paths)
        \/ (code = 1 /\ Exists (fails fuel basicsize remove_header fs) paths))
    /\ (forall f, ~ In f paths -> fs' !! f = fs !! f)
    /\ (forall f contents,
          In f paths -> fs !! f = Some contents ->
          exists o,
            delete_aperio_label fuel basicsize contents remove_header = Some o
            /\ fs' !! f = Some (file_after o)).
Proof. apply strip_labels_spec. Qed.

Lemma batch_outcome_witness :
  exists code fs',
    strip_labels 2 37 false ["a.svs"; "b.svs"]%string 0
      {[ "a.svs"%string := synthetic ]} = Some (code, fs')
    /\ ((code = 0
         /\ Forall (succeeds 2 37 false {[ "a.svs"%string := synthetic ]})
              ["a.svs"; "b.svs"]%string)
        \/ (code = 1
            /\ Exists (fails 2 37 false {[ "a.svs"%string := synthetic ]})
                 ["a.svs"; "b.svs"]%string))
    /\ (forall f, ~ In f ["a.svs"; "b.svs"]%string ->
          fs' !! f = ({[ "a.svs"%string := synthetic ]} : files) !! f)
    /\ (forall f contents,
          In f ["a.svs"; "b.svs"]%string ->
          ({[ "a.svs"%string := synthetic ]} : files) !! f = Some contents ->
          exists o,
            delete_aperio_label 2 37 contents false = Some o
            /\ fs' !! f = Some (file_after o)).
Proof.
  apply (batch_outcome 2 37 false ["a.svs"; "b.svs"]%string
           {[ "a.svs"%string := synthetic ]}).
  - apply NoDup_cons. split; [|apply NoDup_singleton].
    intros H. apply list_elem_of_singleton in H. discriminate.
  - constructor; [|constructor; [|constructor]].
    + intros c Hc. vm_compute in Hc. injection Hc as <-. vm_compute. discriminate.
    + intros c Hc. vm_compute in Hc. discriminate.
Defined.

(** ** A redaction that raises, the strips lying in the file *)

Lemma unpack_rep_unsigned e sc n :
  is_signed sc = false -> sc <> Sc ->
  forall bs, exists zs, unpack_rep e sc n bs = map Int zs.
Proof.
  intros Hs Hc. induction n as [|n IH]; intros bs; cbn [unpack_rep].
  - exists []. reflexivity.
  - destruct (IH (drop (Z.to_nat (size_of sc)) bs)) as [zs ->].
    rewrite decode_item_unsigned by assumption.
    eexists (_ :: zs). reflexivity.
Qed.

(** A decoded value is a string or a tuple of integers. *)
Lemma value_homogeneous e fh v :
  fst (value e fh) = inr v ->
  (exists s, v = Str s) \/ (exists zs, v = Tuple (map Int zs)).
Proof.
  unfold value, item_fmt_of, bind at 1.
  assert (Hint : forall c fh1,
             (type e =? ASCII) = false ->
             is_signed (translate (_bigtiff fh1) c) = false ->
             translate (_bigtiff fh1) c <> Sc ->
             fst (read_value e [(count e, c)] fh1) = inr v ->
             exists zs, v = Tuple (map Int zs)).
  { intros c fh1 Ha Hs Hc. unfold read_value, bind. rewrite read_fmt_unfold.
    cbv zeta. unfold unpack. rewrite Ha.
    destruct (_ =? calcsize _); [|discriminate].
    cbn [_convert_format codes prefix map fst snd unpack_codes ret].
    destruct (unpack_rep_unsigned (_fmt_prefix fh1) _ (Z.to_nat (count e)) Hs Hc
                (take (Z.to_nat (count e * size_of (translate (_bigtiff fh1) c)))
                   (bytes_at (data fh1) (pos fh1)
                      (calcsize (_convert_format fh1 [(count e, c)])))))
      as [zs Hzs].
    cbn [_convert_format codes prefix map fst snd] in Hzs.
    rewrite Hzs, app_nil_r. intros [= <-]. eauto. }
  destruct (type e =? ASCII) eqn:Ha.
  { unfold ret at 1, bind, seek. intros H. left.
    unfold read_value, bind in H. rewrite Ha in H.
    destruct (read_fmt _ _) as [[ex|items] fh1]; [discriminate|].
    destruct (last items) as [l|]; [|discriminate].
    destruct (negb _); [discriminate|].
    destruct (join _) as [ex|s]; [discriminate|].
    injection H as <-. eauto. }
  destruct (type e =? SHORT);
    [unfold ret at 1, bind, seek; right; eapply Hint; try eassumption;
     cbn [set_pos _bigtiff]; destruct (_bigtiff fh); (reflexivity || discriminate)|].
  destruct (type e =? LONG);
    [unfold ret at 1, bind, seek; right; eapply Hint; try eassumption;
     cbn [set_pos _bigtiff]; destruct (_bigtiff fh); (reflexivity || discriminate)|].
  destruct (type e =? LONG8);
    [unfold ret at 1, bind, seek; right; eapply Hint; try eassumption;
     cbn [set_pos _bigtiff]; destruct (_bigtiff fh); (reflexivity || discriminate)|].
  discriminate.
Qed.

(** The strips of decoded values are wiped to the end, or the first
    pair raises before anything is written. *)
Lemma wipe_strips_first_pair basicsize offsets lengths write_size fh :
  ((exists s, offsets = Str s) \/ (exists zs, offsets = Tuple (map Int zs))) ->
  ((exists s, lengths = Str s) \/ (exists zs, lengths = Tuple (map Int zs))) ->
  (exists n, fst (wipe_strips basicsize (zip (iter offsets) (iter lengths))
                    write_size fh) = inr n)
  \/ cursor_only fh (snd (wipe_strips basicsize (zip (iter offsets) (iter lengths))
                            write_size fh)).
Proof.
  intros [[s ->]|[os ->]] [[s' ->]|[ls ->]]; cbn [iter].
  - right. destruct s as [|x s], s' as [|y s']; cbn [map zip zip_with wipe_strips];
      unfold bind, raise; apply cursor_only_refl.
  - right. destruct s as [|x s], ls as [|y ls]; cbn [map zip zip_with wipe_strips];
      unfold bind, raise; apply cursor_only_refl.
  - right. destruct os as [|x os], s' as [|y s']; cbn [map zip zip_with wipe_strips];
      unfold bind, raise, seek;
      (apply cursor_only_refl || apply cursor_only_set_pos).
  - left.
    replace (zip (map Int os) (map Int ls)) with (int_pairs (zip os ls)).
    + destruct (wipe_strips_ints basicsize (zip os ls) write_size fh)
        as (fh' & -> & _). eauto.
    + unfold int_pairs. revert ls. induction os as [|o os IH]; intros [|l ls];
        cbn; try reflexivity. f_equal. apply IH.
Qed.

Lemma pack1_slot_ok fh v :
  0 <= v < 256 ^ slot_width fh ->
  exists bs, pack1 (_fmt_prefix fh) (translate (_bigtiff fh) FZ) v = inr bs.
Proof.
  unfold pack1, slot_width. cbv zeta.
  destruct (_bigtiff fh); cbn [translate is_signed size_of]; intros Hv;
    match goal with
    | |- context [if ?b then _ else _] =>
        replace b with true by (symmetry; apply andb_true_iff; split; lia)
    end; eauto.
Qed.

Lemma redact_directory_atomic basicsize delete_entry d write_size fh ex fh' :
  0 <= out_pointer_offset d ->
  is_Some (link_at fh (out_pointer_offset d)) ->
  redact_directory basicsize delete_entry d write_size fh = (inl ex, fh') ->
  cursor_only fh fh'.
Proof.
  intros Hout Hlink. unfold redact_directory.
  destruct (entries d !! STRIP_OFFSETS) as [eo|];
    [|intros [= _ <-]; apply cursor_only_refl].
  unfold bind at 1.
  pose proof (value_homogeneous eo fh) as Ho.
  destruct (value_cursor_only eo fh) as [p Hp].
  destruct (value eo fh) as [[ex1|offsets] fh1]; cbn [fst snd] in *; subst fh1;
    [intros [= _ <-]; apply cursor_only_set_pos|].
  specialize (Ho offsets eq_refl).
  destruct (entries d !! STRIP_BYTE_COUNTS) as [el|];
    [|intros [= _ <-]; apply cursor_only_set_pos].
  unfold bind at 1.
  pose proof (value_homogeneous el (set_pos p fh)) as Hl.
  destruct (value_cursor_only el (set_pos p fh)) as [q Hq].
  destruct (value el (set_pos p fh)) as [[ex1|lengths] fh2]; cbn [fst snd] in *;
    subst fh2; rewrite ?set_pos_set_pos; [intros [= _ <-]; apply cursor_only_set_pos|].
  specialize (Hl lengths eq_refl).
  unfold bind at 1.
  pose proof (wipe_strips_first_pair basicsize offsets lengths write_size
                (set_pos q fh) Ho Hl) as Hfirst.
  destruct (wipe_strips_logged basicsize (zip (iter offsets) (iter lengths))
              write_size (set_pos q fh)) as (W & (_ & Hd & He & Hb) & _).
  destruct (wipe_strips _ _ _ _) as [[ex1|ws'] fh3]; cbn [fst snd] in *.
  { intros [= _ <-]. destruct Hfirst as [[n Hn]|Hcur]; [discriminate|].
    eapply cursor_only_trans; [apply (cursor_only_set_pos q) | exact Hcur]. }
  (* the strips are wiped: the slot is still there, the rest succeeds *)
  clear Hfirst.
  unfold bind at 1. unfold seek at 1. unfold bind at 1.
  rewrite read_link.
  assert (Hlink3 : is_Some (link_at fh3 (out_pointer_offset d))).
  { apply link_at_is_Some; [exact Hout|].
    apply link_at_is_Some in Hlink; [|exact Hout].
    unfold slot_width in *. rewrite Hb. cbn [set_pos _bigtiff data] in *.
    rewrite Hd. pose proof (replay_length W (data fh)). lia. }
  destruct Hlink3 as [v Hv]. rewrite Hv.
  unfold bind at 1. unfold seek at 1. rewrite !set_pos_set_pos.
  destruct delete_entry; [|discriminate].
  unfold bind, write_fmt. cbn [set_pos _fmt_prefix _bigtiff].
  destruct (pack1_slot_ok fh3 v (link_at_bound _ _ _ Hv)) as [bs ->].
  discriminate.
Qed.

Lemma scan_atomic basicsize delete_entry dirs :
  forall write_size fh ex fh',
    Forall (fun d => 0 <= out_pointer_offset d
                     /\ is_Some (link_at fh (out_pointer_offset d))) dirs ->
    scan basicsize delete_entry dirs write_size fh = (inl ex, fh') ->
    cursor_only fh fh'.
Proof.
  induction dirs as [|d dirs IH]; intros ws fh ex fh' Hall; cbn [scan].
  - intros [= _ <-]. apply cursor_only_refl.
  - apply Forall_cons in Hall. destruct Hall as [[Hout Hlink] Hall].
    destruct (entries d !! IMAGE_DESCRIPTION) as [e|]; [|apply IH; exact Hall].
    unfold bind.
    destruct (value_cursor_only e fh) as [p Hp].
    destruct (value e fh) as [[ex1|desc] fh1]; cbn [fst snd] in *; subst fh1;
      [intros [= _ <-]; apply cursor_only_set_pos|].
    assert (Hrest : scan basicsize delete_entry dirs ws (set_pos p fh) = (inl ex, fh') ->
                    cursor_only fh fh').
    { intros H. eapply cursor_only_trans; [apply (cursor_only_set_pos p)|].
      eapply IH; [exact Hall | exact H]. }
    destruct desc as [s|t]; [|intros [= _ <-]; apply cursor_only_set_pos].
    destruct (negb _); [exact Hrest|].
    destruct (_ || _); [exact Hrest|].
    intros H. eapply cursor_only_trans; [apply (cursor_only_set_pos p)|].
    eapply redact_directory_atomic; [exact Hout | exact Hlink | exact H].
Qed.

(** X16. A redaction that raises, with or without unlinking, on a
    file in which the strips of every directory lie in the file, has
    written nothing, and the file is what it was: a value that does not
    decode, a missing strip entry and a strip value of the wrong type
    are all found before the first write, and once the first strip is
    wiped every later step (the seeks and writes of the strips, the
    read of the slot after the directory, the write of the link)
    stays inside the file and succeeds. *)
Theorem failed_redaction_writes_nothing
    fuel basicsize contents delete_entry o ex :
  delete_aperio_label fuel basicsize contents delete_entry = Some o ->
  result o = inl ex ->
  (forall ds fh,
      TiffFile_init fuel contents = Some (inr ds, fh) ->
      Forall (strips_in_file fh) ds) ->
  writes o = [] /\ file_after o = contents.
Proof.
  intros H Hex _.
  destruct (TiffFile_init fuel contents) as [[[ex'|ds] fh]|] eqn:Hinit.
  - destruct (TiffFile_init_no_write _ _ _ _ Hinit) as [Hd Hw].
    unfold delete_aperio_label in H. rewrite Hinit in H. injection H as <-.
    cbn [writes file_after]. auto.
  - destruct (TiffFile_init_no_write _ _ _ _ Hinit) as [Hd Hw].
    rewrite (delete_aperio_label_scan _ _ _ _ _ _ Hinit) in H. injection H as <-.
    unfold outcome_of in *. cbn [writes file_after result] in *.
    destruct (scan basicsize delete_entry ds 0 fh) as [r fh'] eqn:Hscan.
    cbn [fst snd] in *. subst r.
    pose proof (scan_atomic basicsize delete_entry ds 0 fh ex fh'
                  (walked_next_slots _ _ _ _ Hinit) Hscan) as Hcur.
    rewrite (cursor_only_written _ _ Hcur), (cursor_only_data _ _ Hcur). auto.
  - unfold delete_aperio_label in H. rewrite Hinit in H. discriminate.
Qed.

Lemma failed_redaction_writes_nothing_witness :
  writes {| result := inl TypeError;
            file_after := ascii_lengths_file; writes := [] |} = []
  /\ file_after {| result := inl TypeError;
                   file_after := ascii_lengths_file; writes := [] |}
     = ascii_lengths_file.
Proof.
  apply (failed_redaction_writes_nothing 2 37 ascii_lengths_file true
           {| result := inl TypeError;
              file_after := ascii_lengths_file; writes := [] |}
           TypeError).
  - vm_compute. reflexivity.
  - reflexivity.
  - intros ds fh Hinit. vm_compute in Hinit. injection Hinit as <- <-.
    constructor; [|constructor].
    intros eo el offsets lengths _ Hel _ Hvl.
    vm_compute in Hel. injection Hel as <-.
    vm_compute in Hvl. discriminate.
Defined.

(** ** The failures of the walk *)

Lemma TiffEntry_init_short fh x :
  0 <= x -> Z.of_nat (length (data fh)) < x + entry_width fh ->
  exists fh', TiffEntry_init (set_pos x fh) = (inl StructError, fh').
Proof.
  intros Hx Hlen. destruct (widths_pos fh) as (_ & _ & He).
  unfold TiffEntry_init, bind, tell.
  rewrite read_fmt_unfold. cbv zeta. unfold unpack.
  rewrite entry_width_fmt, bytes_at_length.
  change (entry_width (set_pos x fh)) with (entry_width fh).
  cbn [set_pos data pos].
  destruct (Z.eqb_spec (Z.of_nat (Z.to_nat (entry_width fh)
                                  `min` (length (data fh) - Z.to_nat x)))
              (entry_width fh)) as [Heq|_]; [lia | eexists; reflexivity].
Qed.

Lemma read_entries_short fh (k : nat) :
  forall (m : gmap Z TiffEntry) x,
    0 <= x -> x <= Z.of_nat (length (data fh)) ->
    Z.of_nat (length (data fh)) < x + Z.of_nat k * entry_width fh ->
    exists fh', read_entries k m (set_pos x fh) = (inl StructError, fh').
Proof.
  destruct (widths_pos fh) as (_ & _ & He).
  induction k as [|k IH]; intros m x Hx Hin Hlen; [lia|].
  cbn [read_entries]. unfold bind. rewrite Nat2Z.inj_succ in Hlen.
  destruct (Z_le_gt_dec (x + entry_width fh) (Z.of_nat (length (data fh))))
    as [Hfit|Hshort].
  - destruct (TiffEntry_init_ok fh x Hx Hfit) as (e & -> & _).
    apply IH; nia.
  - destruct (TiffEntry_init_short fh x Hx) as [fh' ->]; [lia | eauto].
Qed.

Lemma TiffDirectory_init_short fh in_pointer off n :
  0 <= off -> count_at fh off = Some n ->
  Z.of_nat (length (data fh)) < off + short_width fh + n * entry_width fh ->
  exists fh', TiffDirectory_init in_pointer (set_pos off fh) = (inl StructError, fh').
Proof.
  intros Hoff Hn Hlen. destruct (widths_pos fh) as (_ & Hs & _).
  destruct (uint_at_range _ _ _ _ Hn Hoff Hs) as [Hn0 Hin].
  unfold TiffDirectory_init, bind. rewrite read_count, Hn.
  destruct (read_entries_short fh (Z.to_nat n) ∅ (off + short_width fh))
    as [fh' ->]; [lia | lia | rewrite Z2Nat.id by lia; lia | eauto].
Qed.

Lemma TiffDirectory_init_failure fh in_pointer off ex fh' :
  0 <= off ->
  TiffDirectory_init in_pointer (set_pos off fh) = (inl ex, fh') ->
  ex = StructError
  /\ (count_at fh off = None
      \/ exists n,
           count_at fh off = Some n
           /\ Z.of_nat (length (data fh))
              < off + short_width fh + n * entry_width fh).
Proof.
  intros Hoff H.
  destruct (count_at fh off) as [n|] eqn:Hn.
  - destruct (Z_le_gt_dec (off + short_width fh + n * entry_width fh)
                (Z.of_nat (length (data fh)))) as [Hfit|Hshort].
    + destruct (TiffDirectory_init_ok fh in_pointer off n Hn Hoff Hfit)
        as (d & Hd & _). rewrite Hd in H. discriminate.
    + destruct (TiffDirectory_init_short fh in_pointer off n Hoff Hn) as [fh1 H1];
        [lia|]. rewrite H1 in H. injection H as <- _.
      split; [reflexivity|]. right. exists n. split; [reflexivity | lia].
  - unfold TiffDirectory_init, bind in H. rewrite read_count, Hn in H.
    injection H as <- _. auto.
Qed.

Lemma read_directories_failure fh (fuel : nat) :
  forall dirs p ex fh',
    0 <= p ->
    read_directories fuel dirs (set_pos p fh) = Some (inl ex, fh') ->
    ex = StructError /\ exists ls q, path fh p ls q /\ truncated_at fh q.
Proof.
  destruct (widths_pos fh) as (Hw & Hs & He).
  induction fuel as [|fuel IH]; intros dirs p ex fh' Hp H; [discriminate|].
  cbn [read_directories] in H. unfold bind, tell, ret in H.
  rewrite read_link in H. cbn [set_pos pos] in H.
  destruct (link_at fh p) as [off|] eqn:Hl.
  2:{ injection H as <- _. split; [reflexivity|].
      exists [], p. split; [constructor | left; exact Hl]. }
  destruct (Z.eqb_spec off 0) as [->|Hoff]; [discriminate|].
  destruct (uint_at_range _ _ _ _ Hl Hp Hw) as [Hoff0 _].
  unfold seek in H. rewrite set_pos_set_pos in H.
  destruct (TiffDirectory_init p (set_pos off fh)) as [[ex1|d] fh2] eqn:Hd.
  - injection H as <- _.
    destruct (TiffDirectory_init_failure _ _ _ _ _ Hoff0 Hd) as [-> Hshort].
    split; [reflexivity|]. exists [], p. split; [constructor|].
    right. exists off. auto.
  - destruct (TiffDirectory_init_shape _ _ _ _ _ Hoff0 Hd)
      as (n & Hn & _ & Hout & -> & _).
    destruct (uint_at_range _ _ _ _ Hn Hoff0 Hs) as [Hn0 _].
    apply IH in H; [|rewrite Hout; nia].
    destruct H as (-> & ls & q & Hpath & Hq). split; [reflexivity|].
    exists ((p, off) :: ls), q. split; [|exact Hq].
    econstructor; [exact Hl | exact Hoff | exact Hn |]. rewrite <- Hout. exact Hpath.
Qed.

Lemma read_directories_truncated fh p ls q :
  path fh p ls q -> truncated_at fh q -> 0 <= p ->
  forall dirs,
  exists fh',
    read_directories (S (length ls)) dirs (set_pos p fh)
    = Some (inl StructError, fh').
Proof.
  destruct (widths_pos fh) as (Hw & Hs & He).
  induction 1 as [p|p off n ls q Hl Hoff Hn Hpath IH]; intros Hq Hp dirs.
  - cbn [length read_directories]. unfold bind, tell, ret.
    rewrite read_link. cbn [set_pos pos].
    destruct Hq as [Hq|(off & Hq & Hoff & Hshort)]; rewrite Hq; [eauto|].
    destruct (Z.eqb_spec off 0) as [?|_]; [contradiction|].
    destruct (uint_at_range _ _ _ _ Hq Hp Hw) as [Hoff0 _].
    unfold seek. rewrite set_pos_set_pos.
    destruct (TiffDirectory_init p (set_pos off fh)) as [[ex|d] fh2] eqn:Hd.
    + destruct (TiffDirectory_init_failure _ _ _ _ _ Hoff0 Hd) as [-> _]. eauto.
    + exfalso.
      destruct (TiffDirectory_init_shape _ _ _ _ _ Hoff0 Hd)
        as (n & Hn & _ & Hout & _ & Hin & _).
      destruct Hshort as [Hnone|(n' & Hn' & Hlen)]; [congruence|].
      rewrite Hn in Hn'. injection Hn' as <-. lia.
  - cbn [length]. cbn [read_directories]. unfold bind, tell, ret.
    rewrite read_link, Hl. cbn [set_pos pos].
    destruct (Z.eqb_spec off 0) as [?|_]; [contradiction|].
    destruct (uint_at_range _ _ _ _ Hl Hp Hw) as [Hoff0 _].
    destruct (uint_at_range _ _ _ _ Hn Hoff0 Hs) as [Hn0 _].
    unfold seek. rewrite set_pos_set_pos.
    destruct (TiffDirectory_init p (set_pos off fh)) as [[ex|d] fh2] eqn:Hd.
    + destruct (TiffDirectory_init_failure _ _ _ _ _ Hoff0 Hd) as [-> _]. eauto.
    + destruct (TiffDirectory_init_shape _ _ _ _ _ Hoff0 Hd)
        as (n' & Hn' & _ & Hout & -> & _).
      rewrite Hn in Hn'. injection Hn' as <-. rewrite Hout.
      apply IH; [exact Hq | nia].
Qed.

(** X17. The failures of the walk.  On a file with a header the
    specification accepts, opening raises exactly when the links lead
    to a slot where the file is cut short: the slot itself, the entry
    count of the directory it points to, or the entries of this
    directory do not all lie in the file.  What it raises is
    [struct.error] when this slot starts in the file and the link in
    it, if there is one, points into the file (or to its end) with an
    entry count below [2^16] there: the seeks are then seeks that
    every platform accepts, [range(count)] is built, and a read comes
    back short. *)
Theorem walk_fails_on_truncation contents e big :
  valid_header contents e big ->
  (forall fuel ex fh,
      TiffFile_init fuel contents = Some (inl ex, fh) ->
      exists ls q,
        path (after_header contents e big) (if big then 8 else 4) ls q
        /\ truncated_at (after_header contents e big) q)
  /\ (forall ls q,
        path (after_header contents e big) (if big then 8 else 4) ls q ->
        truncated_at (after_header contents e big) q ->
        exists ex fh,
          TiffFile_init (S (length ls)) contents = Some (inl ex, fh)
          /\ (within_reach (after_header contents e big) q ->
              ex = StructError)).
Proof.
  intros Hv. pose proof (valid_header_read _ _ _ Hv) as Hh.
  assert (Hp : 0 <= (if big then 8 else 4)) by (destruct big; lia).
  split.
  - intros fuel ex fh H. unfold TiffFile_init in H. rewrite Hh in H.
    change (after_header contents e big)
      with (set_pos (if big then 8 else 4) (after_header contents e big)) in H.
    exact (proj2 (read_directories_failure _ _ _ _ _ _ Hp H)).
  - intros ls q Hpath Hq. unfold TiffFile_init. rewrite Hh.
    change (after_header contents e big)
      with (set_pos (if big then 8 else 4) (after_header contents e big)) at 1.
    destruct (read_directories_truncated _ _ _ _ Hpath Hq Hp []) as [fh H].
    exists StructError, fh. split; [exact H | reflexivity].
Qed.

Lemma walk_fails_on_truncation_witness :
  exists fh, TiffFile_init 1 dangling_file = Some (inl StructError, fh).
Proof.
  destruct (proj2 (walk_fails_on_truncation dangling_file LittleEndian false
                     ltac:(split; [reflexivity | left; split; reflexivity]))
              [] 4) as (ex & fh & H & Hex).
  - constructor.
  - right. exists 8. split; [reflexivity|]. split; [discriminate|].
    left. reflexivity.
  - exists fh. rewrite <- Hex; [exact H|].
    split; [vm_compute; discriminate|].
    intros off Hoff. vm_compute in Hoff. injection Hoff as <-.
    split; [vm_compute; discriminate|].
    intros n Hn. vm_compute in Hn. discriminate.
Defined.
